(** * memDB: an array- and object-based in-memory database

    Shallow embedding of [src/memDB.js] and the properties of its
    retrieval, insertion and deletion engine.

    The JavaScript program keeps one object [db] whose properties are the
    tables; each table is an array of references to record objects.  Three
    kinds of heap objects matter for the behaviour of the program and are
    kept apart here:
    - the [db] object, a finite map from table names to array references;
    - arrays (the tables, and the arrays handed out by [_get]), kept in a
      heap indexed by allocation order, so that two references are the same
      array iff they are the same index;
    - records, the objects stored in the tables, kept in a heap of their
      own and only ever referred to by reference.

    [db] is a plain object, so that reading [db[table]] also finds what
    [db] inherits: the properties of [Object.prototype], and those of an
    array once [set("__proto__", ...)] has made an array the prototype of
    [db].  What these prototypes hold, and how many arguments a call may
    take, belongs to the engine that runs the program; the engine is a
    parameter of the model.

    Reading an attribute of a record is a read of its own properties:
    attribute names in filters are taken to differ from the names that
    every object inherits (such as [constructor]). *)

From Stdlib Require Import ZArith Ascii String List DecimalString.
From stdpp Require Import base option list gmap strings.

Open Scope string_scope.
Open Scope Z_scope.

(** ** Values *)

(** A reference to a heap object (an array or a record). *)
Abbreviation loc := nat.

(** The values found in record attributes and in filter clauses.  Numbers
    are the integer-valued ones; [VObj] is a reference to some object,
    compared by identity. *)
Inductive value :=
| VUndefined
| VNull
| VBool (b : bool)
| VNum (n : Z)
| VStr (s : string)
| VObj (l : loc).

#[global] Instance value_eq_dec : EqDecision value.
Proof. solve_decision. Defined.

(** A record: an open mapping from attribute names to values. *)
Abbreviation record := (gmap string value).

(** [item[index]]: reading an attribute that the record does not have
    gives [undefined]. *)
Definition get_attr (item : record) (index : string) : value :=
  default VUndefined (item !! index).

(** An array object.  The arrays returned by [_get] carry the property
    [delete], a closure over the array itself and over the table name
    [_get] was called with; [delete_of] is that table name. *)
Record array := Array {
  elems : list loc;
  delete_of : option string
}.

(** ** The engine *)

(** What the program takes from the engine that runs it: the properties
    every object inherits from [Object.prototype] and every array from
    [Array.prototype], by name, and the largest number of arguments a call
    may take (spreading more into a call throws a RangeError). *)
Record engine := Engine {
  Object_prototype : string -> option value;
  Array_prototype : string -> option value;
  max_arguments : positive
}.

(** ** The state of one database instance *)

Record store := Store {
  db : gmap string loc;      (* the arrays [db] holds: its own properties
                                and, under the name [__proto__], the array
                                that has become its prototype, if any *)
  arrays : list array;       (* array heap; index = reference *)
  records : gmap loc record  (* record heap *)
}.

(** ** Abrupt completion *)

Inductive error := TypeError | ReferenceError | RangeError.

Inductive completion (A : Type) :=
| Normal (a : A)
| Throw (e : error).
Arguments Normal {A} a.
Arguments Throw {A} e.

#[global] Instance error_eq_dec : EqDecision error.
Proof. solve_decision. Defined.

#[global] Instance completion_eq_dec `{EqDecision A} : EqDecision (completion A).
Proof. solve_decision. Defined.

Definition cbind {A B} (c : completion A) (f : A -> completion B) : completion B :=
  match c with
  | Normal a => f a
  | Throw e => Throw e
  end.

(** Computations that read and write the store and may throw.  A thrown
    error keeps the store as it was at the point of the throw. *)
Definition M (A : Type) : Type := store -> store * completion A.

Definition ret {A} (a : A) : M A := fun s => (s, Normal a).
Definition throw {A} (e : error) : M A := fun s => (s, Throw e).
Definition bind {A B} (m : M A) (f : A -> M B) : M B :=
  fun s => match m s with
           | (s', Normal a) => f a s'
           | (s', Throw e) => (s', Throw e)
           end.
Definition lift {A} (c : completion A) : M A := fun s => (s, c).

Declare Scope js_scope.
Delimit Scope js_scope with js.
Notation "'let!' x ':=' m 'in' k" := (bind m (fun x => k))
  (at level 10, x name, m at level 200, k at level 200, only parsing)
  : js_scope.
Notation "m ;; k" := (bind m (fun _ => k))
  (at level 100, k at level 200, only parsing, right associativity) : js_scope.
Open Scope js_scope.

(** ** Array primitives *)

(** [Array.prototype.indexOf]: index of the first element identical to
    [item], or [-1]. *)
Fixpoint indexOf_from (k : Z) (l : list loc) (item : loc) : Z :=
  match l with
  | [] => -1
  | x :: l' => if decide (x = item) then k else indexOf_from (k + 1) l' item
  end.

Definition indexOf (l : list loc) (item : loc) : Z := indexOf_from 0 l item.

(** [Array.prototype.splice(start, deleteCount)] without inserted items:
    a negative [start] counts from the end of the array. *)
Definition splice {A} (start deleteCount : Z) (l : list A) : list A :=
  let len := Z.of_nat (length l) in
  let actualStart :=
    if start <? 0 then Z.max (len + start) 0 else Z.min start len in
  let actualDeleteCount := Z.min (Z.max deleteCount 0) (len - actualStart) in
  take (Z.to_nat actualStart) l
    ++ drop (Z.to_nat (actualStart + actualDeleteCount)) l.

(** [Array.prototype.some] and [Array.prototype.filter] with a callback
    that may throw: the callbacks are run left to right, [some] stops at
    the first [true], and a throw ends the whole traversal. *)
Fixpoint some {A} (f : A -> completion bool) (l : list A) : completion bool :=
  match l with
  | [] => Normal false
  | x :: l' => cbind (f x) (fun b => if b : bool then Normal true else some f l')
  end.

Fixpoint filter_c {A} (f : A -> completion bool) (l : list A)
  : completion (list A) :=
  match l with
  | [] => Normal []
  | x :: l' =>
      cbind (f x) (fun b =>
      cbind (filter_c f l') (fun r =>
      Normal (if b : bool then x :: r else r)))
  end.

(** ** Filters *)

(** One element of the filter argument of [_get].  [KObj] is any object,
    given by its own enumerable properties; an array nested inside the
    filter array is such an object, with its indices as property names. *)
Inductive keyval :=
| KUndefined
| KNull
| KBool (b : bool)
| KNum (n : Z)
| KStr (s : string)
| KObj (o : gmap string value).

(** The filter argument: one value, or an array of values. *)
Inductive key :=
| KOne (val : keyval)
| KArray (vals : list keyval).

(** [[].concat(key)]: an array argument is copied element by element, any
    other argument becomes the only element. *)
Definition concat_key (k : key) : list keyval :=
  match k with
  | KOne val => [val]
  | KArray vals => vals
  end.

(** The argument of [_set]: one record or an array of records. *)
Inductive items :=
| IOne (item : loc)
| IArray (l : list loc).

Definition concat_items (obj : items) : list loc :=
  match obj with
  | IOne item => [item]
  | IArray l => l
  end.

(** The characters of a string as the entries [["0", c0], ["1", c1], ...]. *)
Fixpoint string_entries (k : nat) (s : string) : list (string * value) :=
  match s with
  | EmptyString => []
  | String c s' =>
      (NilEmpty.string_of_uint (Nat.to_uint k), VStr (String c EmptyString))
        :: string_entries (S k) s'
  end.

(** [Object.entries]: throws on [undefined] and [null]; booleans and numbers
    have no own enumerable properties.  The order in which the entries of
    an object are listed is not the one of the program, which does not
    matter to [every] below, whose callback has no effect. *)
Definition Object_entries (keyObj : keyval) : completion (list (string * value)) :=
  match keyObj with
  | KUndefined | KNull => Throw TypeError
  | KBool _ | KNum _ => Normal []
  | KStr s => Normal (string_entries 0 s)
  | KObj o => Normal (map_to_list o)
  end.

(** ** Store primitives *)

(** [db[table]] where the program goes on to use it as an array: the
    array [db] holds under the name, or [None] for every other value,
    [undefined] or a value that [db] inherits (a function, a number, or a
    record that is an element of its prototype), none of which is an array
    or has the methods of one. *)
Definition db_get (table : string) : M (option loc) :=
  fun s => (s, Normal (db s !! table)).

(** The name of the index [k] of an array. *)
Definition index_name (k : nat) : string :=
  NilEmpty.string_of_uint (Nat.to_uint k).

(** The own properties of an array: its length and its elements. *)
Definition array_own_property (arr : array) (name : string) : option value :=
  if String.eqb name "length"
  then Some (VNum (Z.of_nat (length (elems arr))))
  else head (omap id (imap (fun k item =>
                              if String.eqb (index_name k) name
                              then Some (VObj item) else None)
                        (elems arr))).

(** What [db] inherits under a name it holds no array for.  [db] is made
    as [{}], with the prototype [Object.prototype]; after
    [db["__proto__"] = []] its prototype is that array, followed by
    [Array.prototype] and [Object.prototype]. *)
Definition inherited (js : engine) (s : store) (name : string) : value :=
  match db s !! "__proto__" with
  | None => default VUndefined (Object_prototype js name)
  | Some a =>
      match arrays s !! a ≫= (fun arr => array_own_property arr name) with
      | Some v => v
      | None =>
          match Array_prototype js name with
          | Some v => v
          | None => default VUndefined (Object_prototype js name)
          end
      end
  end.

(** The value of [db[table]] in full. *)
Inductive property :=
| PArray (a : loc)
| PValue (v : value).

Definition db_read (js : engine) (table : string) : M property :=
  fun s => (s, Normal (match db s !! table with
                       | Some a => PArray a
                       | None => PValue (inherited js s table)
                       end)).

(** [db[table] = a] *)
Definition db_set (table : string) (a : loc) : M unit :=
  fun s => (Store (<[table := a]> (db s)) (arrays s) (records s), Normal tt).

(** [Array.isArray(v)] *)
Definition isArray (v : option loc) : M bool :=
  fun s => (s, Normal (bool_decide (is_Some (v ≫= (arrays s !!.))))).

(** A new array object. *)
Definition new_array (arr : array) : M loc :=
  fun s => (Store (db s) (arrays s ++ [arr]) (records s),
            Normal (length (arrays s))).

(** Reaching for a method of [v]: a TypeError when [v] is [undefined]. *)
Definition array_of (v : option loc) : M (loc * array) :=
  fun s => match v with
           | Some a => match arrays s !! a with
                       | Some arr => (s, Normal (a, arr))
                       | None => (s, Throw TypeError)
                       end
           | None => (s, Throw TypeError)
           end.

(** Replacing the elements of the array [a], as [push] and [splice] do. *)
Definition set_elems (a : loc) (l : list loc) : M unit :=
  fun s => (Store (db s)
              (alter (fun arr => Array l (delete_of arr)) a (arrays s))
              (records s),
            Normal tt).

(** [a.forEach(callbackfn)]: the length is read once, the elements are
    read from the live array one index at a time, and an index that is no
    longer present when its turn comes is skipped. *)
Fixpoint forEach_from (a : loc) (callbackfn : loc -> M unit)
    (k : nat) (n : nat) : M unit :=
  match n with
  | O => ret tt
  | S n' =>
      let! cur := array_of (Some a) in
      match elems cur.2 !! k with
      | Some item => callbackfn item
      | None => ret tt
      end ;;
      forEach_from a callbackfn (S k) n'
  end.

Definition forEach (v : option loc) (callbackfn : loc -> M unit) : M unit :=
  let! this := array_of v in
  forEach_from this.1 callbackfn 0 (length (elems this.2)).

(** ** The database *)

(** What a proxy is made over: the object [db], the array of a table, or
    an object that [db] inherits. *)
Inductive target := TDb | TArray (a : loc) | TObject (l : loc).

(** A handle made by [_use]: a proxy over [h_target] whose [get] trap has
    captured the argument [table]. *)
Record handle := Handle {
  h_target : target;
  h_table : option string
}.

(** What a feature returns to its caller. *)
Inductive retval :=
| RUndefined
| RArray (a : loc)
| RBool (b : bool)
| RHandle (h : handle)
| RValue (v : value).

(** A value that [db] inherits, as a feature returns it. *)
Definition retval_of (v : value) : retval :=
  match v with
  | VUndefined => RUndefined
  | _ => RValue v
  end.

(** An argument passed to a feature through a handle. *)
Inductive arg :=
| ATable (table : string)
| AKey (k : key)
| AItems (obj : items)
| ACallback (callback : loc -> M unit).

(** The names declared by the program: the global [memDB], its parameter
    and the constants of its body. *)
Definition declared : list string :=
  [ "memDB"; "primKey"; "db"; "deleteItem"; "_set"; "_get"; "_getAll";
    "_update"; "_delete"; "_deleteAll"; "_use"; "features" ].

(** Truthiness of the optional table name given to [_use]: [undefined]
    and the empty string are falsy. *)
Definition truthy (table : option string) : bool :=
  match table with
  | Some t => negb (String.eqb t "")
  | None => false
  end.

Section memDB.

(** The engine the program runs on. *)
Variable js : engine.

(** [memDB = (primKey = 'id') => ...]: the primary-key attribute is fixed
    when the database is made. *)
Variable primKey : string.

(** The operator [==] on attribute values. *)
Variable loose_eq : value -> value -> bool.

(** [deleteItem = (dbTable, item) => dbTable.splice(dbTable.indexOf(item), 1)] *)
Definition deleteItem (dbTable : option loc) (item : loc) : M unit :=
  let! this := array_of dbTable in
  set_elems this.1 (splice (indexOf (elems this.2) item) 1 (elems this.2)).

(** [this.push(...obj)]: every element of [obj] is an argument of the
    call. *)
Definition push (this : loc * array) (obj : list loc) : M unit :=
  if Z.pos (max_arguments js) <? Z.of_nat (length obj)
  then throw RangeError
  else set_elems this.1 (elems this.2 ++ obj).

(** [_set]: add item(s) to a table.  ([db[table] = []] on the name
    [__proto__] makes the new array the prototype of [db].) *)
Definition _set (table : string) (obj : items) : M unit :=
  let! dbTable := db_get table in
  let! is_array := isArray dbTable in
  (if negb is_array
   then let! a := new_array (Array [] None) in db_set table a
   else ret tt) ;;
  let obj := concat_items obj in
  let! dbTable := db_get table in
  let! this := array_of dbTable in
  push this obj.

(** The pass over the copied filter array that turns a string or a number
    into [{ [primKey]: val }]. *)
Definition wrap_scalar (val : keyval) : keyval :=
  match val with
  | KNum n => KObj {[ primKey := VNum n ]}
  | KStr s => KObj {[ primKey := VStr s ]}
  | _ => val
  end.

(** [Object.entries(keyObj).every(([index, value]) => item[index] == value)] *)
Definition every_entry (item : record) (keyObj : keyval) : completion bool :=
  cbind (Object_entries keyObj) (fun entries =>
  Normal (forallb (fun '(index, value) => loose_eq (get_attr item index) value)
            entries)).

(** The record a table element refers to (an empty record for a
    reference the record heap does not hold). *)
Definition deref (s : store) (item : loc) : record :=
  default ∅ (records s !! item).

(** [_get]: the items of a table that match the filter, in a new array
    that carries the [delete] helper. *)
Definition _get (table : string) (key : key) : M loc :=
  let key := wrap_scalar <$> concat_key key in
  let! dbTable := db_get table in
  let! this := array_of dbTable in
  let! result :=
    (fun s => lift (filter_c (fun item =>
                      some (fun keyObj => every_entry (deref s item) keyObj) key)
                      (elems this.2)) s) in
  new_array (Array result (Some table)).

(** The helper [delete] of an array returned by [_get]:
    [() => { result.forEach(item => deleteItem(db[table], item)) }]. *)
Definition call_delete (result : loc) : M unit :=
  let! this := array_of (Some result) in
  match delete_of this.2 with
  | Some table =>
      forEach (Some result) (fun item =>
        let! dbTable := db_get table in deleteItem dbTable item)
  | None => throw TypeError
  end.

(** [_getAll = (table) => db[table]] *)
Definition _getAll (table : string) : M retval :=
  let! dbTable := db_read js table in
  ret (match dbTable with
       | PArray a => RArray a
       | PValue v => retval_of v
       end).

(** The function an identifier denotes where [_update] and [_delete] call
    it as [f(table, key)] and traverse what it returns.  The retrieval
    function is declared under the name [_get]; evaluating a name that has
    no declaration throws a ReferenceError.  (The other declared names are
    never called in this way; the model has such a call fail.) *)
Definition identifier (name : string) : M (string -> key -> M loc) :=
  if bool_decide (name ∈ declared)
  then (if String.eqb name "_get" then ret _get else throw TypeError)
  else throw ReferenceError.

(** [_update = (table, key, callback) => { get(table, key).forEach(item => callback(item)) }] *)
Definition _update (table : string) (key : key) (callback : loc -> M unit)
  : M unit :=
  let! get := identifier "get" in
  let! result := get table key in
  forEach (Some result) (fun item => callback item).

(** [_delete = (table, key) => { get(table, key).forEach(item => deleteItem(db[table], item)) }] *)
Definition _delete (table : string) (key : key) : M unit :=
  let! get := identifier "get" in
  let! result := get table key in
  forEach (Some result) (fun item =>
    let! dbTable := db_get table in deleteItem dbTable item).

(** [_deleteAll = (table) => delete db[table]]: an own property is
    removed; [db] has no own property [__proto__], and its prototype
    stays. *)
Definition _deleteAll (table : string) : M retval :=
  fun s => (if String.eqb table "__proto__" then s
            else Store (delete table (db s)) (arrays s) (records s),
            Normal (RBool true)).

(** [_use]: [new Proxy(table ? db[table] : db, ...)]; a proxy can only
    be made over an object. *)
Definition _use (table : option string) : M handle :=
  if truthy table then
    let! dbTable := db_read js (default "" table) in
    match dbTable with
    | PArray a => ret (Handle (TArray a) table)
    | PValue (VObj l) => ret (Handle (TObject l) table)
    | PValue _ => throw TypeError
    end
  else ret (Handle TDb table).

(** [features]: the public methods, applied to their arguments.  [None]
    stands for argument lists of a shape that is not modelled. *)
Definition features (prop : string) (args : list arg) : option (M retval) :=
  if String.eqb prop "set" then
    match args with
    | ATable table :: AItems obj :: _ =>
        Some (_set table obj ;; ret RUndefined)
    | _ => None
    end
  else if String.eqb prop "get" then
    match args with
    | ATable table :: AKey key :: _ =>
        Some (let! result := _get table key in ret (RArray result))
    | [ATable table] =>
        Some (let! result := _get table (KOne KUndefined) in ret (RArray result))
    | _ => None
    end
  else if String.eqb prop "getAll" then
    match args with
    | ATable table :: _ => Some (_getAll table)
    | _ => None
    end
  else if String.eqb prop "update" then
    match args with
    | ATable table :: AKey key :: ACallback callback :: _ =>
        Some (_update table key callback ;; ret RUndefined)
    | _ => None
    end
  else if String.eqb prop "delete" then
    match args with
    | ATable table :: AKey key :: _ =>
        Some (_delete table key ;; ret RUndefined)
    | [ATable table] =>
        Some (_delete table (KOne KUndefined) ;; ret RUndefined)
    | _ => None
    end
  else if String.eqb prop "deleteAll" then
    match args with
    | ATable table :: _ => Some (_deleteAll table)
    | _ => None
    end
  else if String.eqb prop "use" then
    match args with
    | [] => Some (let! h := _use None in ret (RHandle h))
    | ATable table :: _ =>
        Some (let! h := _use (Some table) in ret (RHandle h))
    | _ => None
    end
  else None.

(** Calling the method [prop] of a handle: the [get] trap returns
    [(...args) => table ? features[prop].call(null, table, ...args)
                        : features[prop](...args)]. *)
Definition handle_call (h : handle) (prop : string) (args : list arg)
  : option (M retval) :=
  if truthy (h_table h)
  then features prop (ATable (default "" (h_table h)) :: args)
  else features prop args.

(** [memDB] returns [_use()], over an empty [db]. *)
Definition memDB : M handle := _use None.

End memDB.

(** The store of a database that has just been made, given the records
    the caller holds. *)
Definition empty_store (recs : gmap loc record) : store := Store ∅ [] recs.

(** ** An instance of [==] for the examples *)

(** [ToNumber] on the strings that spell a decimal integer, with an optional
    sign; the empty string is [0].  Other strings are taken not to denote
    an integer. *)
Fixpoint digits_value (acc : Z) (s : string) : option Z :=
  match s with
  | EmptyString => Some acc
  | String c s' =>
      let d := Z.of_nat (Ascii.nat_of_ascii c) - 48 in
      if (0 <=? d) && (d <=? 9) then digits_value (10 * acc + d) s' else None
  end.

Definition string_to_number (s : string) : option Z :=
  match s with
  | EmptyString => Some 0
  | String "-"%char (String c s' as ds) => Z.opp <$> digits_value 0 ds
  | String "+"%char (String c s' as ds) => digits_value 0 ds
  | String "-"%char EmptyString | String "+"%char EmptyString => None
  | _ => digits_value 0 s
  end.

(** [==] on the values above: values of one type compare by identity of
    the value, [null] and [undefined] equal each other, a string is
    converted to a number against a number, and a boolean is converted to
    [0] or [1] first.  Two objects are equal when they are the same
    object.  This is [==] on the integers that a number holds exactly and
    on the strings that spell an integer in decimal digits only; it is not
    [==] on strings with blanks, a fraction, an exponent or a radix prefix,
    nor between an object and a primitive value (where [==] runs the
    object's own conversion), all of which it has unequal.  The examples
    stay within the first kind. *)
Definition js_loose_eq (x y : value) : bool :=
  let num_of (v : value) : option Z :=
    match v with
    | VNum n => Some n
    | VStr s => string_to_number s
    | VBool b => Some (if b then 1 else 0)
    | _ => None
    end in
  match x, y with
  | VUndefined, (VUndefined | VNull) | VNull, (VUndefined | VNull) => true
  | VUndefined, _ | VNull, _ | _, VUndefined | _, VNull => false
  | VObj l1, VObj l2 => bool_decide (l1 = l2)
  | VObj _, _ | _, VObj _ => false
  | VStr s1, VStr s2 => bool_decide (s1 = s2)
  | _, _ => match num_of x, num_of y with
            | Some n1, Some n2 => bool_decide (n1 = n2)
            | _, _ => false
            end
  end.

(** Two records, [{id: 1, name: "a"}] and [{id: 2, name: "b"}], at the
    references [0] and [1]. *)
Definition two_records : gmap loc record :=
  {[ 0%nat := {[ "id" := VNum 1; "name" := VStr "a" ]};
     1%nat := {[ "id" := VNum 2; "name" := VStr "b" ]} ]}.

(** An engine for the examples.  [Object.prototype] and [Array.prototype]
    hold the functions of ECMAScript 2023 (each a function object of its
    own, at references from [1000] on, [Object.prototype] itself being
    [1000]), and a call takes up to 125000 arguments. *)
Definition Object_prototype_names : list string :=
  [ "__proto__"; "constructor"; "hasOwnProperty"; "isPrototypeOf";
    "propertyIsEnumerable"; "toLocaleString"; "toString"; "valueOf";
    "__defineGetter__"; "__defineSetter__"; "__lookupGetter__";
    "__lookupSetter__" ].

Definition Array_prototype_names : list string :=
  [ "at"; "concat"; "constructor"; "copyWithin"; "entries"; "every"; "fill";
    "filter"; "find"; "findIndex"; "findLast"; "findLastIndex"; "flat";
    "flatMap"; "forEach"; "includes"; "indexOf"; "join"; "keys";
    "lastIndexOf"; "map"; "pop"; "push"; "reduce"; "reduceRight"; "reverse";
    "shift"; "slice"; "some"; "sort"; "splice"; "toLocaleString";
    "toReversed"; "toSorted"; "toSpliced"; "toString"; "unshift"; "values";
    "with" ].

Definition functions_from (base : nat) (names : list string) (name : string)
  : option value :=
  head (omap id (imap (fun k n => if String.eqb n name
                                  then Some (VObj (base + k)%nat) else None)
                   names)).

Definition node : engine :=
  Engine (functions_from 1000 Object_prototype_names)
         (functions_from 2000 Array_prototype_names)
         125000.

(** The store after [set("users", [r0, r1])] on a new database. *)
Definition two_users : store :=
  (_set node "users" (IArray [0%nat; 1%nat]) (empty_store two_records)).1.

(** ** The filter semantics of the specification *)

(** A filter expression as the specification describes it: a scalar (a
    string or a number), an attribute-equality object, or a sequence that
    mixes the two. *)
Inductive scalar := SNum (n : Z) | SStr (s : string).

Inductive clause := CScalar (x : scalar) | CEq (o : gmap string value).

Inductive filter_expr :=
| FScalar (x : scalar)
| FEq (o : gmap string value)
| FSeq (cs : list clause).

Definition scalar_value (x : scalar) : value :=
  match x with
  | SNum n => VNum n
  | SStr s => VStr s
  end.

Section filter_semantics.

Variable primaryKeyAttribute : string.
Variable loose_eq : value -> value -> bool.

(** A scalar is shorthand for [{primaryKeyAttribute: scalar}]. *)
Definition normalize_clause (c : clause) : gmap string value :=
  match c with
  | CScalar x => {[ primaryKeyAttribute := scalar_value x ]}
  | CEq o => o
  end.

(** A bare scalar or equality object is a one-element sequence. *)
Definition normalize (f : filter_expr) : list (gmap string value) :=
  match f with
  | FScalar x => [normalize_clause (CScalar x)]
  | FEq o => [o]
  | FSeq cs => normalize_clause <$> cs
  end.

(** A record matches a clause iff for every attribute/value pair of the
    clause the record's value at that attribute equals the given value. *)
Definition matches_clause (r : record) (o : gmap string value) : Prop :=
  map_Forall (λ attr v, loose_eq (get_attr r attr) v = true) o.

(** A record matches the expression iff it matches at least one clause
    of the normalized sequence. *)
Definition matches (r : record) (f : filter_expr) : Prop :=
  Exists (matches_clause r) (normalize f).

#[global] Instance matches_clause_dec r o : Decision (matches_clause r o).
Proof. unfold matches_clause. apply _. Defined.

#[global] Instance matches_dec r f : Decision (matches r f).
Proof. unfold matches. apply _. Defined.

End filter_semantics.

(** The JavaScript value that is passed for a filter expression. *)
Definition keyval_of_clause (c : clause) : keyval :=
  match c with
  | CScalar (SNum n) => KNum n
  | CScalar (SStr s) => KStr s
  | CEq o => KObj o
  end.

Definition key_of_filter (f : filter_expr) : key :=
  match f with
  | FScalar x => KOne (keyval_of_clause (CScalar x))
  | FEq o => KOne (KObj o)
  | FSeq cs => KArray (keyval_of_clause <$> cs)
  end.

(** ** Reading a store *)

(** The records of a table, in order, when [db] has the table. *)
Definition table_of (s : store) (table : string) : option (list loc) :=
  a ← db s !! table; elems <$> arrays s !! a.

(** What [deleteItem] leaves of the elements of a table. *)
Definition deleteElem (l : list loc) (item : loc) : list loc :=
  splice (indexOf l item) 1 l.

(** [undefined] and [null], the two values [Object.entries] rejects. *)
Definition nullish (val : keyval) : bool :=
  match val with
  | KUndefined | KNull => true
  | _ => false
  end.

(** A callback for [_update] that assigns to an attribute of the item:
    [item => { item[attr] = v }]. *)
Definition assign (attr : string) (v : value) (item : loc) : M unit :=
  fun s => (Store (db s) (arrays s) (alter (<[attr := v]>) item (records s)),
            Normal tt).

(** The records are no more than the arguments a call may take. *)
Definition fits (js : engine) (l : list loc) : Prop :=
  Z.of_nat (length l) ≤ Z.pos (max_arguments js).

#[global] Instance fits_dec js l : Decision (fits js l).
Proof. unfold fits. apply _. Defined.

(** The records in the array an operation has returned, when it has
    returned one. *)
Definition result_of (r : store * completion loc) : option (list loc) :=
  match r.2 with
  | Normal a => elems <$> arrays r.1 !! a
  | Throw _ => None
  end.

(** The shape of the stores the program builds: every table of [db] is an
    array that exists and has no [delete] helper, and two table names never
    stand for one and the same array. *)
Definition store_ok (s : store) : Prop :=
  (∀ t a, db s !! t = Some a → ∃ l, arrays s !! a = Some (Array l None))
  ∧ (∀ t1 t2 a, db s !! t1 = Some a → db s !! t2 = Some a → t1 = t2).

(** A store with two tables: [users], holding both records, and [admins],
    holding the second one. *)
Definition two_tables : store :=
  (_set node "admins" (IOne 1%nat) two_users).1.

(** ** Basic facts *)

Lemma store_eta s : Store (db s) (arrays s) (records s) = s.
Proof. by destruct s. Qed.

Lemma alter_lookup_insert {A} (f : A -> A) (l : list A) i x :
  l !! i = Some x → alter f i l = <[i := f x]> l.
Proof.
  intros Hi. apply list_eq. intros j.
  destruct (decide (i = j)) as [<-|Hne].
  - rewrite list_lookup_alter, decide_True by done.
    rewrite list_lookup_insert_eq by (by eapply lookup_lt_Some).
    by rewrite Hi.
  - by rewrite list_lookup_alter_ne, list_lookup_insert_ne.
Qed.

Lemma array_of_Some s a arr :
  arrays s !! a = Some arr → array_of (Some a) s = (s, Normal (a, arr)).
Proof. intros H. unfold array_of. by rewrite H. Qed.

Lemma set_elems_insert s a arr l :
  arrays s !! a = Some arr →
  set_elems a l s
  = (Store (db s) (<[a := Array l (delete_of arr)]> (arrays s)) (records s),
     Normal tt).
Proof.
  intros H. unfold set_elems. by rewrite (alter_lookup_insert _ _ _ _ H).
Qed.

(** ** Insertion *)

Lemma push_fits js this obj :
  fits js obj → push js this obj = set_elems this.1 (elems this.2 ++ obj).
Proof.
  unfold fits, push. intros Hfit.
  by rewrite (proj2 (Z.ltb_ge _ _) Hfit).
Qed.

Lemma push_too_many js this obj :
  ¬ fits js obj → push js this obj = throw RangeError.
Proof.
  unfold fits, push. intros Hfit.
  by rewrite (proj2 (Z.ltb_lt _ _)) by lia.
Qed.

Lemma fits_one js item : fits js [item].
Proof. unfold fits. simpl. lia. Qed.

Lemma fits_nil js : fits js [].
Proof. unfold fits. simpl. lia. Qed.

Lemma _set_existing_push js table obj s a arr :
  db s !! table = Some a → arrays s !! a = Some arr →
  _set js table obj s = push js (a, arr) (concat_items obj) s.
Proof.
  intros Hdb Harr. unfold _set, bind, db_get, isArray, ret. simpl.
  rewrite Hdb. simpl. rewrite Harr.
  rewrite bool_decide_eq_true_2 by eauto. simpl.
  by rewrite Hdb, (array_of_Some _ _ _ Harr).
Qed.

Lemma _set_absent_push js table obj s :
  db s !! table ≫= (arrays s !!.) = None →
  _set js table obj s
  = push js (length (arrays s), Array [] None) (concat_items obj)
      (Store (<[table := length (arrays s)]> (db s))
         (arrays s ++ [Array [] None]) (records s)).
Proof.
  intros Hno. unfold _set, bind, db_get, isArray, ret. simpl.
  rewrite Hno.
  rewrite bool_decide_eq_false_2 by (intros [? ?]; discriminate). simpl.
  rewrite lookup_insert_eq. unfold array_of. simpl.
  by rewrite list_lookup_middle by done.
Qed.

Lemma _set_existing js table obj s a arr :
  db s !! table = Some a → arrays s !! a = Some arr →
  fits js (concat_items obj) →
  _set js table obj s
  = (Store (db s)
       (<[a := Array (elems arr ++ concat_items obj) (delete_of arr)]> (arrays s))
       (records s), Normal tt).
Proof.
  intros Hdb Harr Hfit.
  rewrite (_set_existing_push _ _ _ _ _ _ Hdb Harr), push_fits by done.
  by apply set_elems_insert.
Qed.

Lemma _set_absent js table obj s :
  db s !! table ≫= (arrays s !!.) = None →
  fits js (concat_items obj) →
  _set js table obj s
  = (Store (<[table := length (arrays s)]> (db s))
       (arrays s ++ [Array (concat_items obj) None])
       (records s), Normal tt).
Proof.
  intros Hno Hfit. rewrite (_set_absent_push _ _ _ _ Hno), push_fits by done.
  unfold set_elems. simpl. do 2 f_equal.
  apply list_eq. intros j.
  destruct (decide (j = length (arrays s))) as [->|Hne].
  - rewrite list_lookup_alter, decide_True by done.
    by rewrite !list_lookup_middle by done.
  - rewrite list_lookup_alter_ne by done.
    destruct (decide (j < length (arrays s))%nat).
    + by rewrite !lookup_app_l by done.
    + rewrite !lookup_ge_None_2; [done | | ]; rewrite length_app; simpl; lia.
Qed.

Lemma _set_existing_throws js table obj s a arr :
  db s !! table = Some a → arrays s !! a = Some arr →
  ¬ fits js (concat_items obj) →
  _set js table obj s = (s, Throw RangeError).
Proof.
  intros Hdb Harr Hfit.
  by rewrite (_set_existing_push _ _ _ _ _ _ Hdb Harr), push_too_many.
Qed.

Lemma _set_absent_throws js table obj s :
  db s !! table ≫= (arrays s !!.) = None →
  ¬ fits js (concat_items obj) →
  _set js table obj s
  = (Store (<[table := length (arrays s)]> (db s))
       (arrays s ++ [Array [] None]) (records s), Throw RangeError).
Proof.
  intros Hno Hfit. by rewrite (_set_absent_push _ _ _ _ Hno), push_too_many.
Qed.

(** Beyond the limit on arguments [push(...obj)] throws: the table has
    been created by then, and nothing is appended. *)
Lemma _set_too_many js table l s :
  ¬ fits js l →
  ∃ s',
    _set js table (IArray l) s = (s', Throw RangeError)
    ∧ table_of s' table = Some (default [] (table_of s table))
    ∧ records s' = records s.
Proof.
  intros Hfit. unfold table_of.
  destruct (db s !! table ≫= (arrays s !!.)) as [arr|] eqn:Hlook.
  - destruct (db s !! table) as [a|] eqn:Hdb; [|done]. simpl in Hlook.
    exists s. split; [by eapply _set_existing_throws|].
    rewrite Hdb. simpl. by rewrite Hlook.
  - eexists. split; [by apply _set_absent_throws|]. simpl.
    rewrite lookup_insert_eq. simpl. rewrite list_lookup_middle by done.
    split; [|done]. destruct (db s !! table) as [a|]; [|done]. simpl in *.
    by rewrite Hlook.
Qed.

(** C5, at the failing input.  [_set] appends with [push(...obj)], which
    passes every record as an argument of one call.  For an array of more
    records than the engine takes as arguments the call throws a
    RangeError: the table exists afterwards, created empty if it did not
    exist, and none of the given records has been appended.  On an engine
    that takes 125000 arguments, inserting an array of 200000 records into a
    new database throws and leaves the table [users] empty. *)
Theorem set_throws_beyond_argument_limit :
  (∀ js table l s,
     ¬ fits js l →
     ∃ s',
       _set js table (IArray l) s = (s', Throw RangeError)
       ∧ table_of s' table = Some (default [] (table_of s table))
       ∧ records s' = records s)
  ∧ (∃ s',
       _set node "users" (IArray (replicate (Z.to_nat 200000) 0%nat))
         (empty_store two_records)
       = (s', Throw RangeError)
       ∧ table_of s' "users" = Some []).
Proof.
  split; [apply _set_too_many|].
  destruct (_set_too_many node "users" (replicate (Z.to_nat 200000) 0%nat)
              (empty_store two_records)) as (s' & Hset & Htbl & _).
  - unfold fits. rewrite length_replicate. simpl max_arguments. lia.
  - exists s'. by split.
Qed.

(** ** Retrieval *)

Section retrieval.

Variable primKey : string.
Variable loose_eq : value -> value -> bool.

Lemma filter_c_Normal {A} (f : A -> completion bool) (P : A -> Prop)
    `{!∀ x, Decision (P x)} (l : list A) :
  (∀ x, x ∈ l → f x = Normal (bool_decide (P x))) →
  filter_c f l = Normal (filter P l).
Proof.
  induction l as [|x l IH]; intros Hf; [done|]. simpl.
  rewrite Hf by left. simpl.
  rewrite IH by (intros y Hy; apply Hf; by right). simpl.
  rewrite filter_cons. by case_bool_decide; case_decide.
Qed.

Lemma some_cons {A} (f : A -> completion bool) x l :
  some f (x :: l)
  = cbind (f x) (λ b : bool, if b then Normal true else some f l).
Proof. done. Qed.

Lemma every_entry_object (r : record) (o : gmap string value) :
  every_entry loose_eq r (KObj o)
  = Normal (bool_decide (matches_clause loose_eq r o)).
Proof.
  unfold every_entry. simpl. f_equal.
  destruct (forallb _ _) eqn:Hall; symmetry.
  - apply bool_decide_eq_true_2. intros attr v Hav.
    rewrite forallb_forall in Hall.
    apply (Hall (attr, v)). apply list_elem_of_In.
    by apply elem_of_map_to_list.
  - apply bool_decide_eq_false_2. intros Hm.
    apply not_true_iff_false in Hall. apply Hall.
    apply forallb_forall. intros [attr v] Hin.
    apply Hm. apply elem_of_map_to_list. by apply list_elem_of_In.
Qed.

Lemma wrap_scalar_clause (c : clause) :
  wrap_scalar primKey (keyval_of_clause c)
  = KObj (normalize_clause primKey c).
Proof. by destruct c as [[n|x]|o]. Qed.

Lemma some_clauses (r : record) (os : list (gmap string value)) :
  some (every_entry loose_eq r) (KObj <$> os)
  = Normal (bool_decide (Exists (matches_clause loose_eq r) os)).
Proof.
  induction os as [|o os IH].
  - rewrite bool_decide_eq_false_2; [done|]. by intros ?%Exists_nil.
  - rewrite fmap_cons, some_cons, every_entry_object. simpl.
    destruct (decide (matches_clause loose_eq r o)) as [Ho|Ho].
    + rewrite (bool_decide_eq_true_2 _ Ho).
      rewrite bool_decide_eq_true_2; [done|]. by left.
    + rewrite (bool_decide_eq_false_2 _ Ho). rewrite IH. f_equal.
      apply bool_decide_ext. rewrite Exists_cons. tauto.
Qed.

Lemma wrapped_key (f : filter_expr) :
  wrap_scalar primKey <$> concat_key (key_of_filter f)
  = KObj <$> normalize primKey f.
Proof.
  destruct f as [[n|x]|o|cs]; try done.
  simpl. rewrite <- !list_fmap_compose. apply list_fmap_ext.
  intros _ c _. apply wrap_scalar_clause.
Qed.

(** The shape of [_get] on a table that exists: the callback of [filter]
    decides, and nothing but the new array is written. *)
Lemma _get_unfold table key s a tbl :
  db s !! table = Some a → arrays s !! a = Some tbl →
  _get primKey loose_eq table key s
  = match filter_c (λ item, some (every_entry loose_eq (deref s item))
                              (wrap_scalar primKey <$> concat_key key))
            (elems tbl) with
    | Normal result =>
        (Store (db s) (arrays s ++ [Array result (Some table)]) (records s),
         Normal (length (arrays s)))
    | Throw e => (s, Throw e)
    end.
Proof.
  intros Hdb Harr. unfold _get, bind, db_get, lift, new_array. simpl.
  rewrite Hdb, (array_of_Some _ _ _ Harr). simpl.
  by destruct (filter_c _ _).
Qed.

End retrieval.

(** C1.  On a table that exists, [_get] with a filter expression returns a
    new array holding exactly the records of the table that match the
    expression under the specification's OR-of-ANDs reading (scalars
    normalized to an equality on the primary key, a bare clause read as a
    one-element sequence, a clause matched when every one of its pairs is
    [==] to the record's attribute), in table order. *)
Theorem get_returns_matching (primKey : string)
    (loose_eq : value -> value -> bool)
    (s : store) (table : string) (f : filter_expr) (a : loc) (tbl : array) :
  db s !! table = Some a →
  arrays s !! a = Some tbl →
  _get primKey loose_eq table (key_of_filter f) s
  = (Store (db s)
       (arrays s
          ++ [Array (filter (λ item, matches primKey loose_eq (deref s item) f)
                       (elems tbl))
                (Some table)])
       (records s),
     Normal (length (arrays s))).
Proof.
  intros Hdb Harr. rewrite (_get_unfold _ _ _ _ _ _ _ Hdb Harr).
  rewrite wrapped_key.
  rewrite (filter_c_Normal _
             (λ item, matches primKey loose_eq (deref s item) f)); [done|].
  intros item _. apply some_clauses.
Qed.

Lemma filter_c_sublist {A} (f : A -> completion bool) (l res : list A) :
  filter_c f l = Normal res → sublist res l.
Proof.
  revert res. induction l as [|x l IH]; intros res; simpl.
  - intros [= <-]. constructor.
  - destruct (f x) as [b|]; [|done]. simpl.
    destruct (filter_c f l) as [r|]; [|done]. simpl.
    intros [= <-]. destruct b.
    + apply sublist_skip. by apply IH.
    + apply sublist_cons. by apply IH.
Qed.

Lemma filter_c_all {A} (f : A -> completion bool) (l : list A) :
  (∀ x, x ∈ l → f x = Normal true) → filter_c f l = Normal l.
Proof.
  induction l as [|x l IH]; intros Hf; [done|]. simpl.
  rewrite Hf by left. simpl.
  by rewrite IH by (intros y Hy; apply Hf; by right).
Qed.

Lemma filter_c_none {A} (f : A -> completion bool) (l : list A) :
  (∀ x, x ∈ l → f x = Normal false) → filter_c f l = Normal [].
Proof.
  induction l as [|x l IH]; intros Hf; [done|]. simpl.
  rewrite Hf by left. simpl.
  by rewrite IH by (intros y Hy; apply Hf; by right).
Qed.

(** C7.  On a table that exists, [_get] writes nothing that was there
    before the call, whether it returns or throws: [db], the record heap
    and every array, the table among them, are as they were.  When it
    returns, the result is a new array, different from the table, whose
    elements are references taken from the table in table order; no record
    is copied. *)
Theorem get_does_not_mutate (primKey : string)
    (loose_eq : value -> value -> bool)
    (s : store) (table : string) (key : key) (a : loc) (tbl : array) :
  db s !! table = Some a →
  arrays s !! a = Some tbl →
  let r := _get primKey loose_eq table key s in
  db r.1 = db s
  ∧ records r.1 = records s
  ∧ (∀ b arr, arrays s !! b = Some arr → arrays r.1 !! b = Some arr)
  ∧ table_of r.1 table = Some (elems tbl)
  ∧ (∀ result, r.2 = Normal result →
       result ≠ a
       ∧ arrays s !! result = None
       ∧ ∃ l, arrays r.1 !! result = Some (Array l (Some table))
              ∧ sublist l (elems tbl)).
Proof.
  intros Hdb Harr r. subst r.
  rewrite (_get_unfold _ _ _ _ _ _ _ Hdb Harr).
  destruct (filter_c _ _) as [res|e] eqn:Hres; simpl.
  - assert (a < length (arrays s))%nat as Hlt by (by eapply lookup_lt_Some).
    split; [done|]. split; [done|]. split; [|split].
    + intros b arr Hb. rewrite lookup_app_l; [done|]. by eapply lookup_lt_Some.
    + unfold table_of. simpl. rewrite Hdb. simpl.
      rewrite lookup_app_l by done. by rewrite Harr.
    + intros result [= <-]. split; [lia|]. split.
      * by apply lookup_ge_None_2.
      * exists res. split; [by rewrite list_lookup_middle|].
        by eapply filter_c_sublist.
  - split; [done|]. split; [done|]. split; [done|]. split; [|done].
    unfold table_of. rewrite Hdb. simpl. by rewrite Harr.
Qed.

(** C8.  An empty equality object matches every record, so on a table that
    exists [_get(table, {})] returns all the records of the table; an
    empty filter array matches no record, so [_get(table, [])] returns an
    empty array. *)
Theorem get_empty_clause_and_empty_sequence (primKey : string)
    (loose_eq : value -> value -> bool)
    (s : store) (table : string) (a : loc) (tbl : array) :
  db s !! table = Some a →
  arrays s !! a = Some tbl →
  (∀ r : record, every_entry loose_eq r (KObj ∅) = Normal true)
  ∧ _get primKey loose_eq table (KOne (KObj ∅)) s
    = (Store (db s) (arrays s ++ [Array (elems tbl) (Some table)]) (records s),
       Normal (length (arrays s)))
  ∧ (∀ r : record,
       some (every_entry loose_eq r) (wrap_scalar primKey <$> concat_key (KArray []))
       = Normal false)
  ∧ _get primKey loose_eq table (KArray []) s
    = (Store (db s) (arrays s ++ [Array [] (Some table)]) (records s),
       Normal (length (arrays s))).
Proof.
  intros Hdb Harr.
  assert (∀ r : record, every_entry loose_eq r (KObj ∅) = Normal true) as Hall.
  { intros r. unfold every_entry. simpl. by rewrite map_to_list_empty. }
  split; [done|]. split; [|split; [done|]].
  - rewrite (_get_unfold _ _ _ _ _ _ _ Hdb Harr).
    rewrite filter_c_all; [done|]. intros item _.
    change (wrap_scalar primKey <$> concat_key (KOne (KObj ∅)))
      with [KObj (∅ : gmap string value)].
    by rewrite some_cons, Hall.
  - rewrite (_get_unfold _ _ _ _ _ _ _ Hdb Harr).
    by rewrite filter_c_none.
Qed.

(** ** Filters that are not filter expressions *)

Section unvalidated.

Variable primKey : string.
Variable loose_eq : value -> value -> bool.

Lemma some_app {A} (f : A -> completion bool) (l1 l2 : list A) :
  some f (l1 ++ l2)
  = cbind (some f l1) (λ b : bool, if b then Normal true else some f l2).
Proof.
  induction l1 as [|x l1 IH]; [done|].
  rewrite <- app_comm_cons, !some_cons. destruct (f x) as [[]|]; try done.
Qed.

Lemma nullish_wrap_scalar (val : keyval) :
  nullish (wrap_scalar primKey val) = nullish val.
Proof. by destruct val. Qed.

Lemma every_entry_nullish (r : record) (val : keyval) :
  nullish val = true → every_entry loose_eq r val = Throw TypeError.
Proof. by destruct val. Qed.

Lemma every_entry_total (r : record) (val : keyval) :
  nullish val = false → ∃ b, every_entry loose_eq r val = Normal b.
Proof. destruct val; try done; intros _; unfold every_entry; simpl; eauto. Qed.

Lemma some_total (r : record) (l : list keyval) :
  Forall (λ c, nullish c = false) l →
  ∃ b, some (every_entry loose_eq r) l = Normal b.
Proof.
  induction 1 as [|c l Hc _ [b IH]]; [by exists false|].
  rewrite some_cons.
  destruct (every_entry_total r c Hc) as [[] ->]; simpl; eauto.
Qed.

(** With a [null] or [undefined] clause in the filter, a record either
    matches an earlier clause or makes [Object.entries] throw. *)
Lemma some_before_nullish (r : record) (pre post : list keyval) (val : keyval) :
  nullish val = true →
  Forall (λ c, nullish c = false) pre →
  some (every_entry loose_eq r) (wrap_scalar primKey <$> (pre ++ val :: post)%list)
  = if decide (some (every_entry loose_eq r) (wrap_scalar primKey <$> pre)
               = Normal false)
    then Throw TypeError else Normal true.
Proof.
  intros Hval Hpre. rewrite fmap_app, fmap_cons, some_app, some_cons.
  rewrite (every_entry_nullish r (wrap_scalar primKey val))
    by (by rewrite nullish_wrap_scalar).
  destruct (some_total r (wrap_scalar primKey <$> pre)) as [b ->].
  { apply Forall_fmap. eapply Forall_impl; [exact Hpre|].
    intros c Hc. simpl. by rewrite nullish_wrap_scalar. }
  by destruct b.
Qed.

Lemma filter_c_throw {A} (f : A -> completion bool) (e : error) (l : list A) :
  Forall (λ x, f x = Normal true ∨ f x = Throw e) l →
  Exists (λ x, f x = Throw e) l →
  filter_c f l = Throw e.
Proof.
  induction 1 as [|x l Hx Hl IH]; intros Hex; [by apply Exists_nil in Hex|].
  simpl. destruct Hx as [Hx|Hx]; rewrite Hx; [|done]. simpl.
  apply Exists_cons in Hex as [Hex|Hex]; [congruence|].
  by rewrite IH.
Qed.

End unvalidated.

(** C9, as the program has it.  [_get] does not validate its filter and
    there is no error for an invalid one.  On a table that exists, a
    boolean clause behaves as an empty clause and [_get] returns every
    record.  A [null] or [undefined] clause makes [_get] throw a TypeError
    to its caller, with the store as it was, exactly when the table holds
    a record that matches none of the clauses before it; when every record
    matches an earlier clause (so also on an empty table) [_get] returns
    all the records and nothing is thrown. *)
Theorem get_without_filter_validation (primKey : string)
    (loose_eq : value -> value -> bool)
    (s : store) (table : string) (a : loc) (tbl : array) :
  db s !! table = Some a →
  arrays s !! a = Some tbl →
  (∀ b : bool,
     _get primKey loose_eq table (KOne (KBool b)) s
     = (Store (db s) (arrays s ++ [Array (elems tbl) (Some table)]) (records s),
        Normal (length (arrays s))))
  ∧ (∀ (key : key) (pre post : list keyval) (val : keyval),
       concat_key key = (pre ++ val :: post)%list →
       nullish val = true →
       Forall (λ c, nullish c = false) pre →
       let unmatched (item : loc) :=
         some (every_entry loose_eq (deref s item)) (wrap_scalar primKey <$> pre)
         = Normal false in
       (Exists unmatched (elems tbl) →
        _get primKey loose_eq table key s = (s, Throw TypeError))
       ∧ (¬ Exists unmatched (elems tbl) →
          _get primKey loose_eq table key s
          = (Store (db s) (arrays s ++ [Array (elems tbl) (Some table)])
               (records s),
             Normal (length (arrays s))))).
Proof.
  intros Hdb Harr. split.
  - intros b. rewrite (_get_unfold _ _ _ _ _ _ _ Hdb Harr).
    by rewrite filter_c_all.
  - intros key pre post val Hkey Hval Hpre unmatched.
    rewrite !(_get_unfold _ _ _ _ _ _ _ Hdb Harr), Hkey. split.
    + intros Hex. rewrite (filter_c_throw _ TypeError); [done| |].
      * apply Forall_forall. intros item _.
        rewrite (some_before_nullish _ _ _ _ _ _ Hval Hpre).
        case_decide; auto.
      * eapply Exists_impl; [exact Hex|]. intros item Hitem. simpl.
        rewrite (some_before_nullish _ _ _ _ _ _ Hval Hpre).
        by rewrite decide_True.
    + intros Hno. rewrite filter_c_all; [done|]. intros item Hin.
      rewrite (some_before_nullish _ _ _ _ _ _ Hval Hpre).
      case_decide as Hd; [|done]. destruct Hno.
      apply Exists_exists. by exists item.
Qed.

(** C9 as stated fails: on the table [users] with two records, the filter
    [true] is not rejected; [_get] returns both records. *)
Lemma get_boolean_filter_not_rejected :
  ¬ (∃ e, (_get "id" js_loose_eq "users" (KOne (KBool true)) two_users).2
          = Throw e)
  ∧ (∃ s', _get "id" js_loose_eq "users" (KOne (KBool true)) two_users
           = (s', Normal 1%nat)
           ∧ arrays s' !! 1%nat = Some (Array [0; 1]%nat (Some "users"))).
Proof.
  split.
  - intros [e He]. vm_compute in He. discriminate.
  - eexists. split; vm_compute; reflexivity.
Qed.

(** ** Deletion *)

Lemma indexOf_from_absent k l item :
  item ∉ l → indexOf_from k l item = -1.
Proof.
  revert k. induction l as [|x l IH]; intros k Hin; [done|]. simpl.
  apply not_elem_of_cons in Hin as [Hne Hin].
  rewrite decide_False by done. by apply IH.
Qed.

Lemma indexOf_from_first k pre post item :
  item ∉ pre →
  indexOf_from k (pre ++ item :: post) item = k + Z.of_nat (length pre).
Proof.
  revert k. induction pre as [|x pre IH]; intros k Hin; simpl.
  - rewrite decide_True by done. lia.
  - apply not_elem_of_cons in Hin as [Hne Hin].
    rewrite decide_False by done. rewrite IH by done. lia.
Qed.

Lemma splice_one_at {A} (pre post : list A) x :
  splice (Z.of_nat (length pre)) 1 (pre ++ x :: post) = (pre ++ post)%list.
Proof.
  unfold splice. rewrite length_app. simpl.
  replace (Z.of_nat (length pre) <? 0) with false by (symmetry; apply Z.ltb_ge; lia).
  rewrite Z.min_l by lia.
  rewrite (Z.max_l 1 0), (Z.min_l 1) by lia.
  rewrite Nat2Z.id.
  replace (Z.to_nat (Z.of_nat (length pre) + 1)) with (S (length pre)) by lia.
  rewrite take_app_length.
  rewrite cons_middle, app_assoc.
  by rewrite drop_app_length' by (rewrite length_app; simpl; lia).
Qed.

Lemma splice_minus_one {A} (l : list A) :
  splice (-1) 1 l = take (length l - 1) l.
Proof.
  unfold splice. simpl.
  destruct (decide (length l = 0%nat)) as [H0|H0].
  - apply length_zero_iff_nil in H0 as ->. done.
  - rewrite Z.max_l by lia. rewrite (Z.max_l 1 0), (Z.min_l 1) by lia.
    replace (Z.to_nat (Z.of_nat (length l) + -1)) with (length l - 1)%nat by lia.
    replace (Z.to_nat (Z.of_nat (length l) + -1 + 1)) with (length l) by lia.
    by rewrite drop_all, app_nil_r.
Qed.

(** A record that is in the table: its first occurrence is removed. *)
Lemma deleteElem_first pre post item :
  item ∉ pre → deleteElem (pre ++ item :: post) item = (pre ++ post)%list.
Proof.
  intros Hin. unfold deleteElem, indexOf.
  rewrite indexOf_from_first by done. simpl. apply splice_one_at.
Qed.

(** A record that is not in the table: [indexOf] gives [-1], and
    [splice(-1, 1)] removes the last record of the table. *)
Lemma deleteElem_absent l item :
  item ∉ l → deleteElem l item = take (length l - 1) l.
Proof.
  intros Hin. unfold deleteElem, indexOf.
  rewrite indexOf_from_absent by done. apply splice_minus_one.
Qed.

Lemma foldl_deleteElem_filter (P : loc -> Prop) `{!∀ x, Decision (P x)}
    (pre l : list loc) :
  Forall (λ x, ¬ P x) pre →
  foldl deleteElem (pre ++ l)%list (filter P l)
  = (pre ++ filter (λ x, ¬ P x) l)%list.
Proof.
  revert pre. induction l as [|x l IH]; intros pre Hpre; [done|].
  destruct (decide (P x)) as [Hx|Hx].
  - rewrite filter_cons_True by done. simpl.
    rewrite deleteElem_first.
    + rewrite IH by done. by rewrite filter_cons_False by tauto.
    + intros Hin. by eapply (proj1 (Forall_forall _ _) Hpre).
  - rewrite filter_cons_False by done. rewrite filter_cons_True by done.
    rewrite cons_middle, app_assoc. rewrite IH; [by rewrite <- app_assoc|].
    apply Forall_app. split; [done|]. by apply Forall_singleton.
Qed.

Lemma filter_ext_in {A} (P Q : A -> Prop)
    `{!∀ x, Decision (P x)} `{!∀ x, Decision (Q x)} (l : list A) :
  (∀ x, x ∈ l → P x ↔ Q x) → filter P l = filter Q l.
Proof.
  induction l as [|x l IH]; intros Hext; [done|].
  rewrite !filter_cons.
  rewrite IH by (intros y Hy; apply Hext; by right).
  destruct (Hext x) as [H1 H2]; [by left|].
  do 2 case_decide; tauto.
Qed.

Lemma filter_c_filter {A} (f : A -> completion bool) (l res : list A) :
  filter_c f l = Normal res → res = filter (λ x, f x = Normal true) l.
Proof.
  revert res. induction l as [|x l IH]; intros res; simpl.
  - by intros [= <-].
  - destruct (f x) as [b|] eqn:Hx; [|done]. simpl.
    destruct (filter_c f l) as [r|]; [|done]. simpl.
    intros [= <-]. rewrite filter_cons, Hx, (IH r) by done.
    destruct b; by case_decide.
Qed.

Lemma deleteItem_run s a arr item :
  arrays s !! a = Some arr →
  deleteItem (Some a) item s
  = (Store (db s)
       (<[a := Array (deleteElem (elems arr) item) (delete_of arr)]> (arrays s))
       (records s), Normal tt).
Proof.
  intros Harr. unfold deleteItem, bind.
  rewrite (array_of_Some _ _ _ Harr). simpl.
  by apply set_elems_insert.
Qed.

(** The traversal of the helper [delete]: the result array [r] is not the
    table, so removing from the table leaves the traversal undisturbed and
    every element of [r] from index [k] on is visited once, in order. *)
Lemma forEach_from_delete table a r res del d n : ∀ k s tbl,
  db s !! table = Some a →
  arrays s !! a = Some (Array tbl d) →
  arrays s !! r = Some (Array res del) →
  a ≠ r →
  (k + n)%nat = length res →
  forEach_from r (λ item, let! dbTable := db_get table in deleteItem dbTable item)
    k n s
  = (Store (db s)
       (<[a := Array (foldl deleteElem tbl (drop k res)) d]> (arrays s))
       (records s), Normal tt).
Proof.
  induction n as [|n IH]; intros k s tbl Hdb Ha Hr Hne Hlen; simpl.
  - rewrite drop_ge by lia. simpl. rewrite list_insert_id by done.
    unfold ret. by rewrite store_eta.
  - unfold bind at 1. rewrite (array_of_Some _ _ _ Hr). simpl.
    destruct (lookup_lt_is_Some_2 res k) as [item Hitem]; [lia|].
    rewrite Hitem. unfold bind at 1. unfold bind at 1, db_get. rewrite Hdb.
    rewrite (deleteItem_run _ _ _ _ Ha). simpl.
    assert (a < length (arrays s))%nat by (by eapply lookup_lt_Some).
    rewrite (IH (S k) _ (deleteElem tbl item)); simpl; try done; try lia.
    + rewrite list_insert_insert_eq.
      by rewrite (drop_S _ _ _ Hitem).
    + by rewrite list_lookup_insert_eq.
    + by rewrite list_lookup_insert_ne.
Qed.

Lemma call_delete_run s table a r res tbl d :
  arrays s !! r = Some (Array res (Some table)) →
  db s !! table = Some a →
  arrays s !! a = Some (Array tbl d) →
  a ≠ r →
  call_delete r s
  = (Store (db s) (<[a := Array (foldl deleteElem tbl res) d]> (arrays s))
       (records s), Normal tt).
Proof.
  intros Hr Hdb Ha Hne. unfold call_delete, bind.
  rewrite (array_of_Some _ _ _ Hr). simpl.
  unfold forEach, bind. rewrite (array_of_Some _ _ _ Hr). simpl.
  by rewrite (forEach_from_delete table a r res (Some table) d _ 0%nat s tbl).
Qed.

Lemma filter_all {A} (P : A -> Prop) `{!∀ x, Decision (P x)} (l : list A) :
  (∀ x, x ∈ l → P x) → filter P l = l.
Proof.
  induction l as [|x l IH]; intros Hall; [done|].
  rewrite filter_cons_True by (apply Hall; by left).
  by rewrite IH by (intros y Hy; apply Hall; by right).
Qed.

(** Removing, one after the other, records that are all in a table without
    repetitions removes exactly these records. *)
Lemma foldl_deleteElem_present (res : list loc) : ∀ tbl : list loc,
  NoDup tbl → NoDup res → res ⊆ tbl →
  foldl deleteElem tbl res = filter (λ item, item ∉ res) tbl.
Proof.
  induction res as [|x res IH]; intros tbl Htbl Hres Hsub; simpl.
  - rewrite filter_all; [done|]. intros y _. apply not_elem_of_nil.
  - destruct (list_elem_of_split_l tbl x) as (pre & post & -> & Hpre).
    { apply Hsub. by left. }
    apply NoDup_app in Htbl as (Hnd_pre & Hdisj & Hnd_post).
    apply NoDup_cons in Hnd_post as [Hpost Hnd_post].
    apply NoDup_cons in Hres as [Hx Hres].
    rewrite deleteElem_first by done.
    rewrite IH; [| |done|].
    + rewrite !filter_app, filter_cons_False by (intros Hn; apply Hn; by left).
      f_equal; apply filter_ext_in; intros y Hy; rewrite not_elem_of_cons;
        split; try tauto; intros Hyr; split; try done; by intros ->.
    + apply NoDup_app. split; [done|]. split; [|done].
      intros y Hy Hy'. apply (Hdisj y Hy). by right.
    + intros y Hy. assert (y ∈ (pre ++ x :: post)%list) as Hin.
      { apply Hsub. by right. }
      rewrite elem_of_app, elem_of_cons in Hin. rewrite elem_of_app.
      destruct Hin as [?|[->|?]]; [by left|done|by right].
Qed.

(** The helper [delete], called in any later state in which the table
    exists, holds no record twice and still holds every record of the
    result: exactly the records of the result leave the table. *)
Lemma call_delete_present s table a r res tbl d :
  arrays s !! r = Some (Array res (Some table)) →
  db s !! table = Some a →
  arrays s !! a = Some (Array tbl d) →
  a ≠ r →
  NoDup tbl → NoDup res → res ⊆ tbl →
  call_delete r s
  = (Store (db s)
       (<[a := Array (filter (λ item, item ∉ res) tbl) d]> (arrays s))
       (records s), Normal tt).
Proof.
  intros Hr Hdb Ha Hne Htbl Hres Hsub.
  rewrite (call_delete_run _ _ _ _ _ _ _ Hr Hdb Ha Hne).
  by rewrite foldl_deleteElem_present.
Qed.

(** The helper [delete], called on the result of [_get] in the state
    [_get] left: the records of the result, and only they, leave the
    table; the rest keeps its order; [db], the records and the result
    array itself are unchanged. *)
Lemma get_then_delete (primKey : string) (loose_eq : value -> value -> bool)
    s table key a tbl d s1 r :
  db s !! table = Some a →
  arrays s !! a = Some (Array tbl d) →
  _get primKey loose_eq table key s = (s1, Normal r) →
  ∃ res,
    arrays s1 !! r = Some (Array res (Some table))
    ∧ call_delete r s1
      = (Store (db s)
           (<[a := Array (filter (λ item, item ∉ res) tbl) d]> (arrays s1))
           (records s), Normal tt).
Proof.
  intros Hdb Ha. rewrite (_get_unfold _ _ _ _ _ _ _ Hdb Ha). simpl.
  destruct (filter_c _ _) as [res|e] eqn:Hres; [|done].
  intros [= <- <-]. exists res.
  assert (a < length (arrays s))%nat as Hlt by (by eapply lookup_lt_Some).
  split; [simpl; by rewrite list_lookup_middle|].
  erewrite call_delete_run;
    [| simpl; by rewrite list_lookup_middle | done
     | simpl; by rewrite lookup_app_l | lia].
  simpl.
  do 3 f_equal.
  apply filter_c_filter in Hres. rewrite Hres.
  rewrite (foldl_deleteElem_filter _ [] tbl) by constructor. simpl.
  f_equal. apply filter_ext_in. intros x Hx. rewrite list_elem_of_filter. tauto.
Qed.

(** C2, at the failing input.  On the table [users] with the records [0]
    and [1], the result of [_get("users", 1)] holds the record [0] alone.
    Its helper [delete] removes the record [0]; called once more, when the
    record [0] is no longer in the table, it removes the record [1], which
    was never in the result, and the table is left empty. *)
Theorem delete_helper_removes_unrelated_record :
  ∃ s1 s2 s3,
    _get "id" js_loose_eq "users" (KOne (KNum 1)) two_users = (s1, Normal 1%nat)
    ∧ arrays s1 !! 1%nat = Some (Array [0%nat] (Some "users"))
    ∧ table_of s1 "users" = Some [0%nat; 1%nat]
    ∧ call_delete 1%nat s1 = (s2, Normal tt)
    ∧ table_of s2 "users" = Some [1%nat]
    ∧ call_delete 1%nat s2 = (s3, Normal tt)
    ∧ table_of s3 "users" = Some [].
Proof.
  do 3 eexists. repeat split; vm_compute; reflexivity.
Qed.

(** ** Update and delete by filter *)

Lemma identifier_get (primKey : string) (loose_eq : value -> value -> bool) :
  identifier primKey loose_eq "get" = throw ReferenceError.
Proof. reflexivity. Qed.

Lemma _update_throws (primKey : string) (loose_eq : value -> value -> bool)
    table key callback s :
  _update primKey loose_eq table key callback s = (s, Throw ReferenceError).
Proof. unfold _update. by rewrite identifier_get. Qed.

Lemma _delete_throws (primKey : string) (loose_eq : value -> value -> bool)
    table key s :
  _delete primKey loose_eq table key s = (s, Throw ReferenceError).
Proof. unfold _delete. by rewrite identifier_get. Qed.

(** C3, at the failing input.  [_update] calls [get], a name the program
    does not declare: whatever the table, the filter and the callback, it
    throws a ReferenceError before any retrieval and before the callback
    is called.  On the table [users], [update("users", 1, r => r.x = 5)]
    throws and the record with [id] 1 has no attribute [x] afterwards. *)
Theorem update_throws_reference_error :
  (∀ primKey loose_eq table key callback s,
     _update primKey loose_eq table key callback s = (s, Throw ReferenceError))
  ∧ _update "id" js_loose_eq "users" (KOne (KNum 1)) (assign "x" (VNum 5))
      two_users
    = (two_users, Throw ReferenceError)
  ∧ deref two_users 0%nat !! "x" = None
  ∧ (∃ s', assign "x" (VNum 5) 0%nat two_users = (s', Normal tt)
           ∧ deref s' 0%nat !! "x" = Some (VNum 5)).
Proof.
  split; [apply _update_throws|]. split; [apply _update_throws|].
  split; [by vm_compute|].
  eexists. split; [reflexivity|]. by vm_compute.
Qed.

(** C4, at the failing input.  [_delete] calls [get], a name the program
    does not declare: whatever the table and the filter, it throws a
    ReferenceError and removes nothing.  On the table [users],
    [delete("users", 1)] throws and both records are still in the table. *)
Theorem delete_throws_reference_error :
  (∀ primKey loose_eq table key s,
     _delete primKey loose_eq table key s = (s, Throw ReferenceError))
  ∧ _delete "id" js_loose_eq "users" (KOne (KNum 1)) two_users
    = (two_users, Throw ReferenceError)
  ∧ table_of two_users "users" = Some [0%nat; 1%nat].
Proof.
  split; [apply _delete_throws|]. split; [apply _delete_throws|].
  by vm_compute.
Qed.

(** ** Whole tables and handles *)

Lemma _getAll_own js table s a :
  db s !! table = Some a → _getAll js table s = (s, Normal (RArray a)).
Proof. intros Hdb. unfold _getAll, bind, db_read, ret. by rewrite Hdb. Qed.

Lemma _getAll_inherited js table s :
  db s !! table = None →
  _getAll js table s = (s, Normal (retval_of (inherited js s table))).
Proof. intros Hdb. unfold _getAll, bind, db_read, ret. by rewrite Hdb. Qed.

Lemma inherited_nothing js s name :
  db s !! "__proto__" = None → Object_prototype js name = None →
  inherited js s name = VUndefined.
Proof. intros Hproto Hname. unfold inherited. by rewrite Hproto, Hname. Qed.

(** C6, as the program has it.  [_getAll] never fails and leaves the
    store as it was: it returns the value of [db[table]].  When the table
    exists this is the table's own array, not a copy, so that records
    added to the table later are seen through the reference returned
    earlier.  When the table does not exist (nothing was ever inserted, or
    [_deleteAll] removed it) it is what [db] inherits under the name:
    [undefined] for a name that [db] does not inherit, and the inherited
    value for a name such as [constructor]. *)
Theorem getAll_returns_table_or_undefined (js : engine) (s : store)
    (table : string) :
  (∃ v, _getAll js table s = (s, Normal v))
  ∧ (∀ a arr l,
       db s !! table = Some a → arrays s !! a = Some arr → fits js l →
       _getAll js table s = (s, Normal (RArray a))
       ∧ arrays (_set js table (IArray l) s).1 !! a
         = Some (Array (elems arr ++ l) (delete_of arr)))
  ∧ (db s !! table = None →
     _getAll js table s = (s, Normal (retval_of (inherited js s table))))
  ∧ (db s !! table = None → db s !! "__proto__" = None →
     Object_prototype js table = None →
     _getAll js table s = (s, Normal RUndefined))
  ∧ (∀ v, db s !! table = None → db s !! "__proto__" = None →
          Object_prototype js table = Some v →
          _getAll js table s = (s, Normal (retval_of v)))
  ∧ (∀ recs, Object_prototype js table = None →
             _getAll js table (empty_store recs)
             = (empty_store recs, Normal RUndefined))
  ∧ (table ≠ "__proto__" → db s !! "__proto__" = None →
     Object_prototype js table = None →
     _getAll js table (_deleteAll table s).1
     = ((_deleteAll table s).1, Normal RUndefined)).
Proof.
  split; [|split; [|split; [|split; [|split; [|split]]]]].
  - unfold _getAll, bind, db_read, ret. eauto.
  - intros a arr l Hdb Harr Hfit. split; [by apply _getAll_own|].
    rewrite (_set_existing js table (IArray l) _ _ _ Hdb Harr Hfit). simpl.
    rewrite list_lookup_insert_eq; [done|]. by eapply lookup_lt_Some.
  - apply _getAll_inherited.
  - intros Hdb Hproto Hname.
    by rewrite _getAll_inherited, inherited_nothing.
  - intros v Hdb Hproto Hname. rewrite _getAll_inherited by done.
    unfold inherited. by rewrite Hproto, Hname.
  - intros recs Hname. by rewrite _getAll_inherited, inherited_nothing.
  - intros Hne Hproto Hname. unfold _deleteAll. simpl.
    rewrite (proj2 (String.eqb_neq table "__proto__") Hne).
    rewrite _getAll_inherited by apply lookup_delete_eq.
    rewrite inherited_nothing; [done| |done]. simpl.
    by rewrite lookup_delete_ne.
Qed.

(** C6 as stated fails: on a database into which nothing was inserted,
    [getAll("users")] does not fail; it returns [undefined].  Nor does
    [getAll("constructor")], which returns the function that [db]
    inherits under that name. *)
Lemma getAll_absent_table_does_not_fail :
  db (empty_store ∅) !! "users" = None
  ∧ _getAll node "users" (empty_store ∅) = (empty_store ∅, Normal RUndefined)
  ∧ ¬ (∃ e, (_getAll node "users" (empty_store ∅)).2 = Throw e)
  ∧ db (empty_store ∅) !! "constructor" = None
  ∧ _getAll node "constructor" (empty_store ∅)
    = (empty_store ∅, Normal (RValue (VObj 1001%nat))).
Proof.
  split; [done|]. split; [done|]. split; [by intros [e He]|]. by split.
Qed.

Lemma _use_absent js name s :
  name ≠ "" → db s !! name = None →
  (∀ l, inherited js s name ≠ VObj l) →
  _use js (Some name) s = (s, Throw TypeError).
Proof.
  intros Hname Hdb Hinh. unfold _use, truthy.
  rewrite (proj2 (String.eqb_neq name "") Hname). simpl.
  unfold bind, db_read. rewrite Hdb.
  destruct (inherited js s name) as [| | | | |l] eqn:Hv; try done.
  by destruct (Hinh l).
Qed.

(** C10, as the program has it.  For every table name other than the
    empty string for which [db[name]] is no object, so for a name that is
    not in [db] (never inserted into, or removed by [_deleteAll]) and that
    [db] does not inherit, [_use(name)] throws a TypeError while the proxy
    is being made, and the store is left as it was.  For a name under which
    [db] inherits an object, such as [constructor], [_use(name)] returns a
    handle over that object.  [_use()] always returns a handle over [db]
    with no table bound, and so does [_use("")], the empty name being
    falsy; a method of such a handle is the feature itself, applied to the
    arguments as given, the table name among them. *)
Theorem use_handle (js : engine) (primKey : string)
    (loose_eq : value -> value -> bool) (s : store) :
  (∀ name, name ≠ "" → db s !! name = None →
           (∀ l, inherited js s name ≠ VObj l) →
           _use js (Some name) s = (s, Throw TypeError))
  ∧ (∀ name, name ≠ "" → db s !! name = None →
             db s !! "__proto__" = None → Object_prototype js name = None →
             _use js (Some name) s = (s, Throw TypeError))
  ∧ (∀ name, name ≠ "" → name ≠ "__proto__" →
             db s !! "__proto__" = None → Object_prototype js name = None →
             _use js (Some name) (_deleteAll name s).1
             = ((_deleteAll name s).1, Throw TypeError))
  ∧ (∀ name l, name ≠ "" → db s !! name = None →
               inherited js s name = VObj l →
               _use js (Some name) s
               = (s, Normal (Handle (TObject l) (Some name))))
  ∧ _use js None s = (s, Normal (Handle TDb None))
  ∧ memDB js s = (s, Normal (Handle TDb None))
  ∧ _use js (Some "") s = (s, Normal (Handle TDb (Some "")))
  ∧ (∀ h prop args,
       h = Handle TDb None ∨ h = Handle TDb (Some "") →
       handle_call js primKey loose_eq h prop args
       = features js primKey loose_eq prop args).
Proof.
  split; [intros name; by apply _use_absent|].
  split; [|split; [|split; [|repeat split]]].
  - intros name Hname Hdb Hproto Hinh. apply _use_absent; [done|done|].
    intros l. by rewrite inherited_nothing.
  - intros name Hname Hne Hproto Hinh. unfold _deleteAll. simpl.
    rewrite (proj2 (String.eqb_neq name "__proto__") Hne).
    apply _use_absent; [done|apply lookup_delete_eq|].
    intros l. rewrite inherited_nothing; [done| |done]. simpl.
    by rewrite lookup_delete_ne.
  - intros name l Hname Hdb Hinh. unfold _use, truthy.
    rewrite (proj2 (String.eqb_neq name "") Hname). simpl.
    unfold bind, db_read. by rewrite Hdb, Hinh.
  - by intros h prop args [-> | ->].
Qed.

(** C10 as stated fails: the empty string is a table name that is not in
    a new database, yet [use("")] does not fail; it returns the same
    store-wide handle as [use()].  Nor does [use("constructor")] fail,
    which returns a handle over the function [db] inherits under that
    name. *)
Lemma use_empty_name_does_not_fail :
  db (empty_store ∅) !! "" = None
  ∧ _use node (Some "") (empty_store ∅)
    = (empty_store ∅, Normal (Handle TDb (Some "")))
  ∧ ¬ (∃ e, (_use node (Some "") (empty_store ∅)).2 = Throw e)
  ∧ db (empty_store ∅) !! "constructor" = None
  ∧ _use node (Some "constructor") (empty_store ∅)
    = (empty_store ∅,
       Normal (Handle (TObject 1001%nat) (Some "constructor"))).
Proof.
  split; [done|]. split; [done|]. split; [by intros [e He]|]. by split.
Qed.

(** ** The theorems at a concrete database *)

(** The scenario of the specification: with the primary key [id] and the
    records [{id: 1, name: "a"}] and [{id: 2, name: "b"}] in [users],
    [get("users", [1, {name: "b"}])] is decided by [matches]. *)
Lemma get_returns_matching_witness :
  db two_users !! "users" = Some 0%nat
  ∧ arrays two_users !! 0%nat = Some (Array [0; 1]%nat None)
  ∧ _get "id" js_loose_eq "users"
      (key_of_filter (FSeq [CScalar (SNum 1); CEq {[ "name" := VStr "b" ]}]))
      two_users
    = (Store (db two_users)
         (arrays two_users
            ++ [Array
                  (filter
                     (λ item, matches "id" js_loose_eq (deref two_users item)
                                (FSeq [CScalar (SNum 1);
                                       CEq {[ "name" := VStr "b" ]}]))
                     (elems (Array [0; 1]%nat None)))
                  (Some "users")])
         (records two_users),
       Normal (length (arrays two_users))).
Proof.
  split; [reflexivity|]. split; [reflexivity|].
  apply (get_returns_matching "id" js_loose_eq two_users "users"
           (FSeq [CScalar (SNum 1); CEq {[ "name" := VStr "b" ]}])
           0%nat (Array [0; 1]%nat None)); reflexivity.
Defined.

(** The loose equality of the program: the string ["1"] retrieves the
    record whose [id] is the number [1], and both clauses of the scenario
    retrieve both records in insertion order. *)
Example get_scenario :
  filter (λ item, matches "id" js_loose_eq (deref two_users item)
                    (FScalar (SStr "1"))) [0; 1]%nat = [0%nat]
  ∧ filter (λ item, matches "id" js_loose_eq (deref two_users item)
                      (FSeq [CScalar (SNum 1); CEq {[ "name" := VStr "b" ]}]))
      [0; 1]%nat = [0; 1]%nat
  ∧ filter (λ item, matches "id" js_loose_eq (deref two_users item)
                      (FEq {[ "id" := VNum 2; "name" := VStr "a" ]}))
      [0; 1]%nat = [].
Proof. repeat split; vm_compute; reflexivity. Qed.

Lemma get_does_not_mutate_witness :
  db two_users !! "users" = Some 0%nat
  ∧ arrays two_users !! 0%nat = Some (Array [0; 1]%nat None)
  ∧ (let r := _get "id" js_loose_eq "users" (KOne (KNum 2)) two_users in
     db r.1 = db two_users
     ∧ records r.1 = records two_users
     ∧ (∀ b arr, arrays two_users !! b = Some arr → arrays r.1 !! b = Some arr)
     ∧ table_of r.1 "users" = Some (elems (Array [0; 1]%nat None))
     ∧ (∀ result, r.2 = Normal result →
          result ≠ 0%nat
          ∧ arrays two_users !! result = None
          ∧ ∃ l, arrays r.1 !! result = Some (Array l (Some "users"))
                 ∧ sublist l (elems (Array [0; 1]%nat None)))).
Proof.
  split; [reflexivity|]. split; [reflexivity|].
  apply (get_does_not_mutate "id" js_loose_eq two_users "users" (KOne (KNum 2))
           0%nat (Array [0; 1]%nat None)); reflexivity.
Defined.

Lemma get_empty_clause_and_empty_sequence_witness :
  db two_users !! "users" = Some 0%nat
  ∧ arrays two_users !! 0%nat = Some (Array [0; 1]%nat None)
  ∧ _get "id" js_loose_eq "users" (KOne (KObj ∅)) two_users
    = (Store (db two_users)
         (arrays two_users ++ [Array [0; 1]%nat (Some "users")])
         (records two_users), Normal 1%nat)
  ∧ _get "id" js_loose_eq "users" (KArray []) two_users
    = (Store (db two_users)
         (arrays two_users ++ [Array [] (Some "users")])
         (records two_users), Normal 1%nat).
Proof.
  split; [reflexivity|]. split; [reflexivity|].
  pose proof (get_empty_clause_and_empty_sequence "id" js_loose_eq two_users
                "users" 0%nat (Array [0; 1]%nat None) eq_refl eq_refl)
    as (_ & Hall & _ & Hnone).
  split; [exact Hall | exact Hnone].
Defined.

(** [get("users", [1, null])]: the record with [id] 2 matches no clause
    before [null], and the call throws. *)
Lemma get_without_filter_validation_witness :
  db two_users !! "users" = Some 0%nat
  ∧ arrays two_users !! 0%nat = Some (Array [0; 1]%nat None)
  ∧ _get "id" js_loose_eq "users" (KOne (KBool false)) two_users
    = (Store (db two_users)
         (arrays two_users ++ [Array [0; 1]%nat (Some "users")])
         (records two_users), Normal 1%nat)
  ∧ _get "id" js_loose_eq "users" (KArray [KNum 1; KNull]) two_users
    = (two_users, Throw TypeError).
Proof.
  split; [reflexivity|]. split; [reflexivity|].
  pose proof (get_without_filter_validation "id" js_loose_eq two_users
                "users" 0%nat (Array [0; 1]%nat None) eq_refl eq_refl)
    as [Hbool Hnull].
  split; [exact (Hbool false)|].
  apply (Hnull (KArray [KNum 1; KNull]) [KNum 1] [] KNull);
    [reflexivity | reflexivity | by repeat constructor |].
  apply Exists_cons_tl, Exists_cons_hd. vm_compute. reflexivity.
Defined.

(** ** Further properties of retrieval *)

Section retrieval_properties.

Variable primKey : string.
Variable loose_eq : value -> value -> bool.

Lemma result_of_new s l d :
  result_of (Store (db s) (arrays s ++ [Array l d]) (records s),
             Normal (length (arrays s)))
  = Some l.
Proof. unfold result_of. simpl. by rewrite list_lookup_middle. Qed.

(** The records [_get] returns for a filter expression. *)
Lemma _get_result_matches s table f a tbl :
  db s !! table = Some a → arrays s !! a = Some tbl →
  result_of (_get primKey loose_eq table (key_of_filter f) s)
  = Some (filter (λ item, matches primKey loose_eq (deref s item) f) (elems tbl)).
Proof.
  intros Hdb Harr. rewrite (_get_unfold _ _ _ _ _ _ _ Hdb Harr), wrapped_key.
  rewrite (filter_c_Normal _
             (λ item, matches primKey loose_eq (deref s item) f)).
  - apply result_of_new.
  - intros item _. apply some_clauses.
Qed.

Lemma _get_absent s table key :
  db s !! table = None →
  _get primKey loose_eq table key s = (s, Throw TypeError).
Proof. intros Hdb. unfold _get, bind, db_get. by rewrite Hdb. Qed.

End retrieval_properties.

(** X1.  Retrieval from a table that does not exist throws a TypeError for
    every filter, the empty filter array included, and leaves the store as
    it was; retrieval from a table that exists and is empty returns an empty
    array for every filter, also for one with a [null] clause. *)
Theorem get_missing_or_empty_table (primKey : string)
    (loose_eq : value -> value -> bool)
    (s : store) (table : string) (key : key) :
  (db s !! table = None →
   _get primKey loose_eq table key s = (s, Throw TypeError))
  ∧ (∀ a d, db s !! table = Some a → arrays s !! a = Some (Array [] d) →
            result_of (_get primKey loose_eq table key s) = Some []).
Proof.
  split; [apply _get_absent|].
  intros a d Hdb Harr. rewrite (_get_unfold _ _ _ _ _ _ _ Hdb Harr). simpl.
  apply result_of_new.
Qed.

(** X2.  A filter sequence is a union: on a table that exists, the records
    returned for the sequence [cs1 ++ cs2] are the records of the table
    that are returned for [cs1] or for [cs2], each once per occurrence in
    the table and in table order. *)
Theorem get_sequence_is_union (primKey : string)
    (loose_eq : value -> value -> bool)
    (s : store) (table : string) (a : loc) (tbl : array)
    (cs1 cs2 : list clause) :
  db s !! table = Some a →
  arrays s !! a = Some tbl →
  ∃ l1 l2,
    result_of (_get primKey loose_eq table (key_of_filter (FSeq cs1)) s)
    = Some l1
    ∧ result_of (_get primKey loose_eq table (key_of_filter (FSeq cs2)) s)
      = Some l2
    ∧ result_of
        (_get primKey loose_eq table (key_of_filter (FSeq (cs1 ++ cs2))) s)
      = Some (filter (λ item, item ∈ l1 ∨ item ∈ l2) (elems tbl)).
Proof.
  intros Hdb Harr. do 2 eexists.
  rewrite !(_get_result_matches _ _ _ _ _ _ _ Hdb Harr).
  split; [done|]. split; [done|]. f_equal.
  apply filter_ext_in. intros item Hitem.
  rewrite !list_elem_of_filter. unfold matches. simpl.
  rewrite fmap_app, Exists_app. tauto.
Qed.

(** X3.  An equality object is a conjunction: on a table that exists, the
    records returned for an object that joins two objects with different
    attributes are the records returned for both of them. *)
Theorem get_object_is_intersection (primKey : string)
    (loose_eq : value -> value -> bool)
    (s : store) (table : string) (a : loc) (tbl : array)
    (o1 o2 : gmap string value) :
  db s !! table = Some a →
  arrays s !! a = Some tbl →
  o1 ##ₘ o2 →
  ∃ l1 l2,
    result_of (_get primKey loose_eq table (key_of_filter (FEq o1)) s) = Some l1
    ∧ result_of (_get primKey loose_eq table (key_of_filter (FEq o2)) s)
      = Some l2
    ∧ result_of (_get primKey loose_eq table (key_of_filter (FEq (o1 ∪ o2))) s)
      = Some (filter (λ item, item ∈ l1 ∧ item ∈ l2) (elems tbl)).
Proof.
  intros Hdb Harr Hdisj. do 2 eexists.
  rewrite !(_get_result_matches _ _ _ _ _ _ _ Hdb Harr).
  split; [done|]. split; [done|]. f_equal.
  apply filter_ext_in. intros item Hitem.
  rewrite !list_elem_of_filter. unfold matches. simpl.
  rewrite !Exists_cons, !Exists_nil. unfold matches_clause.
  rewrite map_Forall_union by done. tauto.
Qed.

(** ** Further properties of deletion *)

Lemma filter_nothing {A} (P : A -> Prop) `{!∀ x, Decision (P x)} (l : list A) :
  (∀ x, x ∈ l → ¬ P x) → filter P l = [].
Proof.
  induction l as [|x l IH]; intros Hno; [done|].
  rewrite filter_cons_False by (apply Hno; by left).
  apply IH. intros y Hy. apply Hno. by right.
Qed.

Lemma length_deleteElem l item :
  length (deleteElem l item) = (length l - 1)%nat.
Proof.
  destruct (decide (item ∈ l)) as [Hin|Hin].
  - destruct (list_elem_of_split_l l item Hin) as (pre & post & -> & Hpre).
    rewrite deleteElem_first by done. rewrite !length_app. simpl. lia.
  - rewrite deleteElem_absent by done. rewrite length_take. lia.
Qed.

(** X4.  Retrieval followed by the helper [delete] of its result: on a
    table that exists, [get(table, f).delete()] returns normally and leaves
    in the table exactly the records that do not match [f], in their
    order; [db] and the records are as before, and retrieving with [f]
    again returns an empty array. *)
Theorem get_delete_then_get (primKey : string)
    (loose_eq : value -> value -> bool)
    (s : store) (table : string) (f : filter_expr)
    (a : loc) (tbl : list loc) (d : option string) :
  db s !! table = Some a →
  arrays s !! a = Some (Array tbl d) →
  ∃ s1 r s2,
    _get primKey loose_eq table (key_of_filter f) s = (s1, Normal r)
    ∧ call_delete r s1 = (s2, Normal tt)
    ∧ table_of s2 table
      = Some (filter (λ item, ¬ matches primKey loose_eq (deref s item) f) tbl)
    ∧ db s2 = db s
    ∧ records s2 = records s
    ∧ result_of (_get primKey loose_eq table (key_of_filter f) s2) = Some [].
Proof.
  intros Hdb Harr.
  assert (a < length (arrays s))%nat as Hlt by (by eapply lookup_lt_Some).
  destruct (_get primKey loose_eq table (key_of_filter f) s) as [s1 c] eqn:Hget.
  pose proof (_get_result_matches primKey loose_eq _ _ f _ _ Hdb Harr) as Hres.
  rewrite (_get_unfold _ _ _ _ _ _ _ Hdb Harr) in Hget.
  destruct (filter_c _ _) as [res|e] eqn:Hfc.
  2:{ rewrite (_get_unfold _ _ _ _ _ _ _ Hdb Harr), Hfc in Hres. done. }
  injection Hget as <- <-.
  rewrite (_get_unfold _ _ _ _ _ _ _ Hdb Harr), Hfc, result_of_new in Hres.
  injection Hres as ->. simpl in *.
  pose proof (_get_unfold primKey loose_eq table (key_of_filter f) _ _ _
                Hdb Harr) as Hget.
  cbn [elems] in Hget. rewrite Hfc in Hget.
  destruct (get_then_delete _ _ _ _ _ _ _ _ _ _ Hdb Harr Hget)
    as (res & Hr & Hdel).
  simpl in Hr. rewrite list_lookup_middle in Hr by done.
  injection Hr as <-.
  assert (filter
            (λ item, item ∉ filter
               (λ item, matches primKey loose_eq (deref s item) f) tbl) tbl
          = filter (λ item, ¬ matches primKey loose_eq (deref s item) f) tbl)
    as Hrest.
  { apply filter_ext_in. intros x Hx. rewrite list_elem_of_filter. tauto. }
  rewrite Hrest in Hdel.
  do 3 eexists. split; [done|]. split; [exact Hdel|].
  assert (∀ l : list array, a < length l →
            ∀ x : array, <[a := x]> l !! a = Some x)%nat as Hins.
  { intros l Hl x. by apply list_lookup_insert_eq. }
  split; [|split; [done|split; [done|]]].
  - unfold table_of. simpl. rewrite Hdb. simpl.
    rewrite Hins; [done|]. rewrite length_app. lia.
  - erewrite _get_result_matches; [|exact Hdb|].
    2:{ simpl. apply Hins. rewrite length_app. lia. }
    simpl. f_equal. apply filter_nothing.
    intros x Hx%list_elem_of_filter. unfold deref in *. simpl. tauto.
Qed.

Lemma get_delete_then_get_witness :
  ∃ s1 r s2,
    _get "id" js_loose_eq "users"
      (key_of_filter (FSeq [CScalar (SNum 1); CEq {[ "name" := VStr "b" ]}]))
      two_users = (s1, Normal r)
    ∧ call_delete r s1 = (s2, Normal tt)
    ∧ table_of s2 "users"
      = Some (filter
                (λ item, ¬ matches "id" js_loose_eq (deref two_users item)
                             (FSeq [CScalar (SNum 1);
                                    CEq {[ "name" := VStr "b" ]}]))
                [0; 1]%nat)
    ∧ db s2 = db two_users
    ∧ records s2 = records two_users
    ∧ result_of
        (_get "id" js_loose_eq "users"
           (key_of_filter (FSeq [CScalar (SNum 1);
                                 CEq {[ "name" := VStr "b" ]}])) s2)
      = Some [].
Proof.
  apply (get_delete_then_get "id" js_loose_eq two_users "users"
           (FSeq [CScalar (SNum 1); CEq {[ "name" := VStr "b" ]}])
           0%nat [0; 1]%nat None); reflexivity.
Defined.

(** X5.  The helper [delete] of a result whose table is no longer in [db]
    (it was removed by [_deleteAll]): with an empty result it does nothing
    and returns; with a result that holds a record it throws a TypeError at
    the first record; in both cases the store is left as it was. *)
Theorem delete_helper_without_table (s : store) (r : loc) (res : list loc)
    (table : string) :
  arrays s !! r = Some (Array res (Some table)) →
  db s !! table = None →
  call_delete r s
  = (s, if decide (res = []) then Normal tt else Throw TypeError).
Proof.
  intros Hr Hdb. unfold call_delete, bind.
  rewrite (array_of_Some _ _ _ Hr). simpl.
  unfold forEach, bind. rewrite (array_of_Some _ _ _ Hr). simpl.
  destruct res as [|item res]; [done|]. simpl.
  unfold bind at 1. rewrite (array_of_Some _ _ _ Hr). simpl.
  unfold bind, db_get, deleteItem, bind, array_of. by rewrite Hdb.
Qed.

Lemma delete_helper_without_table_witness :
  call_delete 1%nat
    (_deleteAll "users"
       (_get "id" js_loose_eq "users" (KOne (KNum 1)) two_users).1).1
  = ((_deleteAll "users"
        (_get "id" js_loose_eq "users" (KOne (KNum 1)) two_users).1).1,
     if decide ([0%nat] = []) then Normal tt else Throw TypeError).
Proof.
  apply (delete_helper_without_table _ 1%nat [0%nat] "users"); reflexivity.
Defined.

(** X6.  [deleteItem] on a table that exists never fails and always takes
    exactly one record out of a table that is not empty: the first
    occurrence of the item when the item is in the table, and the last
    record of the table when it is not.  On [undefined] in place of the
    table it throws a TypeError. *)
Theorem deleteItem_removes_one (s : store) (a : loc) (arr : array) (item : loc) :
  arrays s !! a = Some arr →
  (∃ l',
     deleteItem (Some a) item s
     = (Store (db s) (<[a := Array l' (delete_of arr)]> (arrays s)) (records s),
        Normal tt)
     ∧ length l' = (length (elems arr) - 1)%nat
     ∧ (∀ pre post, elems arr = (pre ++ item :: post)%list → item ∉ pre →
                    l' = (pre ++ post)%list)
     ∧ (item ∉ elems arr → l' = take (length (elems arr) - 1) (elems arr)))
  ∧ deleteItem None item s = (s, Throw TypeError).
Proof.
  intros Harr. split; [|done].
  exists (deleteElem (elems arr) item).
  split; [by apply deleteItem_run|]. split; [apply length_deleteElem|]. split.
  - intros pre post -> Hpre. by apply deleteElem_first.
  - apply deleteElem_absent.
Qed.

Lemma deleteItem_removes_one_witness :
  (∃ l',
     deleteItem (Some 0%nat) 7%nat two_users
     = (Store (db two_users)
          (<[0%nat := Array l' (delete_of (Array [0; 1]%nat None))]>
             (arrays two_users))
          (records two_users), Normal tt)
     ∧ length l' = (length (elems (Array [0; 1]%nat None)) - 1)%nat
     ∧ (∀ pre post,
          elems (Array [0; 1]%nat None) = (pre ++ 7%nat :: post)%list →
          7%nat ∉ pre → l' = (pre ++ post)%list)
     ∧ (7%nat ∉ elems (Array [0; 1]%nat None) →
        l' = take (length (elems (Array [0; 1]%nat None)) - 1)
               (elems (Array [0; 1]%nat None))))
  ∧ deleteItem None 7%nat two_users = (two_users, Throw TypeError).
Proof.
  apply (deleteItem_removes_one two_users 0%nat (Array [0; 1]%nat None) 7%nat).
  reflexivity.
Defined.

(** ** What every operation keeps *)

Lemma bind_preserves {A B} (P : store -> Prop) (m : M A) (k : A -> M B) :
  (∀ s, P s → P (m s).1) →
  (∀ x s, P s → P (k x s).1) →
  ∀ s, P s → P (bind m k s).1.
Proof.
  intros Hm Hk s Hs. unfold bind. specialize (Hm s Hs).
  destruct (m s) as [s' [x|e]]; simpl in *; [by apply Hk|done].
Qed.

Lemma forEach_from_preserves (P : store -> Prop) a (f : loc -> M unit) n :
  (∀ item s, P s → P (f item s).1) →
  ∀ k s, P s → P (forEach_from a f k n s).1.
Proof.
  intros Hf. induction n as [|n IH]; intros k s Hs; [done|]. simpl.
  apply bind_preserves; [| |done].
  - clear. intros s Hs. unfold array_of. by repeat case_match.
  - intros cur s' Hs'. apply bind_preserves; [| |done].
    + intros s'' Hs''. destruct (elems cur.2 !! k); [by apply Hf|done].
    + intros _ s'' Hs''. by apply IH.
Qed.

Lemma forEach_preserves (P : store -> Prop) v (f : loc -> M unit) :
  (∀ item s, P s → P (f item s).1) →
  ∀ s, P s → P (forEach v f s).1.
Proof.
  intros Hf. unfold forEach. apply bind_preserves.
  - intros s Hs. unfold array_of. by repeat case_match.
  - intros x. by apply forEach_from_preserves.
Qed.

Lemma call_delete_preserves (P : store -> Prop) r :
  (∀ table item s, P s →
     P ((let! dbTable := db_get table in deleteItem dbTable item) s).1) →
  ∀ s, P s → P (call_delete r s).1.
Proof.
  intros Hf. unfold call_delete. apply bind_preserves.
  - intros s Hs. unfold array_of. by repeat case_match.
  - intros x s Hs. destruct (delete_of x.2); [|done].
    apply forEach_preserves; [|done]. intros item. apply Hf.
Qed.

Lemma store_ok_set_elems s a l : store_ok s → store_ok (set_elems a l s).1.
Proof.
  intros [Harr Hinj]. split; [|done]. simpl. intros t b Hb.
  destruct (Harr t b Hb) as [l0 Hl0].
  destruct (decide (a = b)) as [->|Hne].
  - exists l. rewrite list_lookup_alter, decide_True by done. by rewrite Hl0.
  - exists l0. by rewrite list_lookup_alter_ne.
Qed.

Lemma store_ok_deleteItem s v item : store_ok s → store_ok (deleteItem v item s).1.
Proof.
  intros Hok. unfold deleteItem. apply bind_preserves; [| |done].
  - intros s' Hs'. unfold array_of. by repeat case_match.
  - intros x s' Hs'. by apply store_ok_set_elems.
Qed.

Lemma store_ok_new_array s arr :
  store_ok s → store_ok (Store (db s) (arrays s ++ [arr]) (records s)).
Proof.
  intros [Harr Hinj]. split; [|done]. simpl. intros t a Ha.
  destruct (Harr t a Ha) as [l Hl]. exists l.
  rewrite lookup_app_l; [done|]. by eapply lookup_lt_Some.
Qed.

(** The stores [_set] can leave: the table's array with the records
    appended, or unchanged by a throw; for a table that did not exist, a
    new array under its name. *)
Lemma _set_cases js table obj s :
  (∃ a arr,
     db s !! table = Some a ∧ arrays s !! a = Some arr
     ∧ ((_set js table obj s).1 = s
        ∨ (_set js table obj s).1
          = Store (db s)
              (<[a := Array (elems arr ++ concat_items obj) (delete_of arr)]>
                 (arrays s))
              (records s)))
  ∨ (db s !! table ≫= (arrays s !!.) = None
     ∧ ∃ l, (_set js table obj s).1
            = Store (<[table := length (arrays s)]> (db s))
                (arrays s ++ [Array l None]) (records s)).
Proof.
  destruct (decide (fits js (concat_items obj))) as [Hfit|Hfit];
    destruct (db s !! table ≫= (arrays s !!.)) as [arr|] eqn:Hlook.
  - destruct (db s !! table) as [a|] eqn:Hdb; [|done]. simpl in Hlook.
    left. exists a, arr. split; [done|]. split; [done|]. right.
    by rewrite (_set_existing _ _ _ _ _ _ Hdb Hlook Hfit).
  - right. split; [done|]. eexists.
    by rewrite (_set_absent _ _ _ _ Hlook Hfit).
  - destruct (db s !! table) as [a|] eqn:Hdb; [|done]. simpl in Hlook.
    left. exists a, arr. split; [done|]. split; [done|]. left.
    by rewrite (_set_existing_throws _ _ _ _ _ _ Hdb Hlook Hfit).
  - right. split; [done|]. eexists.
    by rewrite (_set_absent_throws _ _ _ _ Hlook Hfit).
Qed.

Lemma store_ok__set js s table obj :
  store_ok s → store_ok (_set js table obj s).1.
Proof.
  intros Hok.
  destruct (_set_cases js table obj s)
    as [(a & arr & Hdb & Hlook & [->| ->])|[Hlook [l ->]]]; [done| |].
  - pose proof (store_ok_set_elems s a (elems arr ++ concat_items obj) Hok)
      as Hok'.
    by rewrite (set_elems_insert _ _ _ _ Hlook) in Hok'.
  - destruct Hok as [Harr Hinj]. split; simpl.
    + intros t a. destruct (decide (t = table)) as [->|Hne].
      * rewrite lookup_insert_eq. intros [= <-]. eexists.
        by rewrite list_lookup_middle.
      * rewrite lookup_insert_ne by done. intros Ha.
        destruct (Harr t a Ha) as [l' Hl]. exists l'.
        rewrite lookup_app_l; [done|]. by eapply lookup_lt_Some.
    + assert (∀ t, db s !! t ≠ Some (length (arrays s))) as Hfresh.
      { intros t Ht. destruct (Harr t _ Ht) as [l' Hl].
        apply lookup_lt_Some in Hl. lia. }
      intros t1 t2 a.
      destruct (decide (t1 = table)) as [->|H1];
        destruct (decide (t2 = table)) as [->|H2]; try done;
        rewrite ?lookup_insert_eq, ?lookup_insert_ne by done.
      * intros [= <-] Ht2. by destruct (Hfresh t2).
      * intros Ht1 [= <-]. by destruct (Hfresh t1).
      * apply Hinj.
Qed.

Lemma _get_store (primKey : string) (loose_eq : value -> value -> bool)
    table key s :
  (_get primKey loose_eq table key s).1 = s
  ∨ ∃ res, (_get primKey loose_eq table key s).1
           = Store (db s) (arrays s ++ [Array res (Some table)]) (records s).
Proof.
  unfold _get, bind, db_get, array_of, lift, new_array. simpl.
  destruct (db s !! table) as [a|]; [|by left].
  destruct (arrays s !! a) as [arr|]; [|by left]. simpl.
  destruct (filter_c _ _) as [res|e]; [right; by exists res|by left].
Qed.

Lemma store_ok__get (primKey : string) (loose_eq : value -> value -> bool)
    table key s :
  store_ok s → store_ok (_get primKey loose_eq table key s).1.
Proof.
  intros Hok.
  destruct (_get_store primKey loose_eq table key s) as [->|[res ->]];
    [done|by apply store_ok_new_array].
Qed.

Lemma _use_store js table s : (_use js table s).1 = s.
Proof.
  unfold _use, bind, db_read.
  destruct (truthy table); [|done]. simpl. by repeat case_match.
Qed.

Lemma _getAll_store js table s : (_getAll js table s).1 = s.
Proof. done. Qed.

Lemma store_ok__deleteAll s table : store_ok s → store_ok (_deleteAll table s).1.
Proof.
  intros Hok. unfold _deleteAll. simpl.
  destruct (String.eqb table "__proto__"); [done|].
  destruct Hok as [Harr Hinj]. split; simpl.
  - intros t a Ha. apply lookup_delete_Some in Ha as [_ Ha]. eauto.
  - intros t1 t2 a [_ H1]%lookup_delete_Some [_ H2]%lookup_delete_Some. eauto.
Qed.

(** X7.  The stores the program builds keep their shape.  A new database
    has it, and every public method, called through [features] with any
    arguments, as well as the helper [delete] of any array, leaves a store
    in which every table of [db] is an existing array without a [delete]
    helper and no two table names share an array, whether the call returns
    or throws. *)
Theorem store_ok_invariant (js : engine) (primKey : string)
    (loose_eq : value -> value -> bool) :
  (∀ recs, store_ok (empty_store recs))
  ∧ (∀ prop args m s,
       features js primKey loose_eq prop args = Some m →
       store_ok s → store_ok (m s).1)
  ∧ (∀ r s, store_ok s → store_ok (call_delete r s).1).
Proof.
  split; [|split].
  - intros recs. split; simpl; intros *; by rewrite lookup_empty.
  - intros prop args m s Hf Hok. unfold features in Hf.
    repeat case_match; try discriminate; injection Hf as <-;
      try (apply bind_preserves; [|done|done]; clear s Hok; intros s Hok);
      first [ by apply store_ok__set
            | by apply store_ok__get
            | by apply store_ok__deleteAll
            | by rewrite _update_throws
            | by rewrite _delete_throws
            | by rewrite _use_store
            | by rewrite _getAll_store
            | done ].
  - intros r s Hok. apply call_delete_preserves; [|done].
    intros table item s' Hs'. apply bind_preserves; [done| |done].
    intros v s'' Hs''. by apply store_ok_deleteItem.
Qed.

Lemma store_ok_empty recs : store_ok (empty_store recs).
Proof. split; simpl; intros *; by rewrite lookup_empty. Qed.

Lemma store_ok_two_tables : store_ok two_tables.
Proof. apply store_ok__set, store_ok__set, store_ok_empty. Qed.

Lemma store_ok_two_users : store_ok two_users.
Proof. apply store_ok__set, store_ok_empty. Qed.

Lemma table_of_same s s' t :
  store_ok s →
  db s' !! t = db s !! t →
  (∀ b, db s !! t = Some b → arrays s' !! b = arrays s !! b) →
  table_of s' t = table_of s t.
Proof.
  intros Hok Hdb Harr. unfold table_of. rewrite Hdb.
  destruct (db s !! t) as [b|] eqn:Hb; [|done]. simpl. by rewrite Harr.
Qed.

(** X8.  Tables do not interfere.  In a store of the shape the program
    builds, inserting into a table, running the helper [delete] of a
    result retrieved from that table, and removing that table all leave
    the records of every other table as they were (a record that is also in
    another table stays there); retrieval leaves every table as it was. *)
Theorem other_tables_untouched (js : engine) (primKey : string)
    (loose_eq : value -> value -> bool)
    (s : store) (table other : string) :
  store_ok s →
  other ≠ table →
  (∀ obj, table_of (_set js table obj s).1 other = table_of s other)
  ∧ (∀ r arr, arrays s !! r = Some arr → delete_of arr = Some table →
              table_of (call_delete r s).1 other = table_of s other)
  ∧ table_of (_deleteAll table s).1 other = table_of s other
  ∧ (∀ key t, table_of (_get primKey loose_eq table key s).1 t = table_of s t).
Proof.
  intros Hok Hne. pose proof Hok as [Halloc Hinj].
  split; [|split; [|split]].
  - intros obj.
    destruct (_set_cases js table obj s)
      as [(a & arr & Hdb & Hlook & [->| ->])|[Hlook [l ->]]]; [done| |];
      (apply table_of_same; [done| |]); simpl; try done.
    + intros b Hb. rewrite list_lookup_insert_ne; [done|].
      intros ->. by destruct Hne; apply (Hinj other table b).
    + by rewrite lookup_insert_ne.
    + intros b Hb. destruct (Halloc _ _ Hb) as [l' Hl].
      rewrite lookup_app_l; [done|]. by eapply lookup_lt_Some.
  - intros r arr Hr Hdel.
    assert (call_delete r s
            = forEach (Some r)
                (λ item, let! dbTable := db_get table in deleteItem dbTable item)
                s) as Hcall.
    { unfold call_delete, bind at 1. rewrite (array_of_Some _ _ _ Hr). simpl.
      by rewrite Hdel. }
    assert (db (call_delete r s).1 = db s
            ∧ ∀ b, db s !! table ≠ Some b →
                   arrays (call_delete r s).1 !! b = arrays s !! b) as [Hdb Harr].
    { rewrite Hcall.
      apply (forEach_preserves
               (λ s', db s' = db s
                      ∧ ∀ b, db s !! table ≠ Some b →
                             arrays s' !! b = arrays s !! b)); [|done].
      intros item s' [Hdb' Harr']. unfold bind, db_get, deleteItem, bind.
      rewrite Hdb'. unfold array_of.
      destruct (db s !! table) as [a|] eqn:Ha; [|done].
      destruct (arrays s' !! a) as [arr'|]; [|done]. simpl.
      split; [done|]. intros b Hb.
      rewrite list_lookup_alter_ne by congruence. by apply Harr'. }
    apply table_of_same; [done|by rewrite Hdb|].
    intros b Hb. apply Harr. intros Hb'.
    by destruct Hne; apply (Hinj other table b).
  - unfold _deleteAll. simpl. destruct (String.eqb table "__proto__"); [done|].
    apply table_of_same; [done| |done]. simpl. by rewrite lookup_delete_ne.
  - intros key t.
    destruct (_get_store primKey loose_eq table key s) as [->|[res ->]];
      [done|].
    apply table_of_same; [done|done|]. simpl. intros b Hb.
    destruct (Halloc _ _ Hb) as [l Hl].
    rewrite lookup_app_l; [done|]. by eapply lookup_lt_Some.
Qed.

Lemma other_tables_untouched_witness :
  (∀ obj, table_of (_set node "users" obj two_tables).1 "admins"
          = table_of two_tables "admins")
  ∧ (∀ r arr, arrays two_tables !! r = Some arr →
              delete_of arr = Some "users" →
              table_of (call_delete r two_tables).1 "admins"
              = table_of two_tables "admins")
  ∧ table_of (_deleteAll "users" two_tables).1 "admins"
    = table_of two_tables "admins"
  ∧ (∀ key t, table_of (_get "id" js_loose_eq "users" key two_tables).1 t
              = table_of two_tables t).
Proof.
  apply (other_tables_untouched node "id" js_loose_eq two_tables
           "users" "admins").
  - apply store_ok_two_tables.
  - discriminate.
Defined.

(** ** Further properties of insertion and of whole tables *)

Lemma _set_table js s table obj :
  fits js (concat_items obj) →
  ∃ a d,
    db (_set js table obj s).1 !! table = Some a
    ∧ arrays (_set js table obj s).1 !! a
      = Some (Array (default [] (table_of s table) ++ concat_items obj) d)
    ∧ records (_set js table obj s).1 = records s.
Proof.
  intros Hfit. unfold table_of.
  destruct (db s !! table ≫= (arrays s !!.)) as [arr|] eqn:Hlook.
  - destruct (db s !! table) as [a|] eqn:Hdb; [|done]. simpl in Hlook.
    rewrite (_set_existing _ _ _ _ _ _ Hdb Hlook Hfit). simpl.
    rewrite Hlook. simpl.
    exists a, (delete_of arr). split; [done|]. split; [|done].
    apply list_lookup_insert_eq. by eapply lookup_lt_Some.
  - rewrite (_set_absent _ _ _ _ Hlook Hfit). simpl.
    exists (length (arrays s)), None.
    rewrite lookup_insert_eq, list_lookup_middle by done.
    split; [done|]. split; [|done].
    destruct (db s !! table) as [a|]; [|done]. simpl in *. by rewrite Hlook.
Qed.

(** X9.  Insertions compose.  Inserting [l1] and then [l2] into a table
    leaves the same store as inserting [l1 ++ l2] at once, whether or not
    the table existed, as long as [l1 ++ l2] is no more than a call takes
    as arguments, and the table then holds its former records followed by
    [l1 ++ l2]; inserting one record is inserting the array that holds just
    it.  Inserting an empty array into a table that exists changes
    nothing, and into a table that does not exist it creates the table,
    empty. *)
Theorem set_composes (js : engine) (s : store) (table : string) :
  (∀ l1 l2,
     fits js (l1 ++ l2) →
     _set js table (IArray l2) (_set js table (IArray l1) s).1
     = _set js table (IArray (l1 ++ l2)) s
     ∧ table_of (_set js table (IArray l2) (_set js table (IArray l1) s).1).1
         table
       = Some (default [] (table_of s table) ++ l1 ++ l2)%list)
  ∧ (∀ item, _set js table (IOne item) s = _set js table (IArray [item]) s)
  ∧ (∀ a arr, db s !! table = Some a → arrays s !! a = Some arr →
              _set js table (IArray []) s = (s, Normal tt))
  ∧ (db s !! table = None →
     table_of (_set js table (IArray []) s).1 table = Some []).
Proof.
  split; [|split; [done|split]].
  - intros l1 l2 Hfit.
    assert (fits js l1 ∧ fits js l2) as [Hfit1 Hfit2].
    { unfold fits in *. rewrite length_app in Hfit. lia. }
    assert (_set js table (IArray l2) (_set js table (IArray l1) s).1
            = _set js table (IArray (l1 ++ l2)) s) as Heq; [|split; [done|]].
    2:{ rewrite Heq.
        destruct (_set_table js s table (IArray (l1 ++ l2)) Hfit)
          as (a & d & Hdb & Harr & _).
        unfold table_of at 1. rewrite Hdb. simpl. by rewrite Harr. }
    destruct (db s !! table ≫= (arrays s !!.)) as [arr|] eqn:Hlook.
    + destruct (db s !! table) as [a|] eqn:Hdb; [|done]. simpl in Hlook.
      assert (a < length (arrays s))%nat by (by eapply lookup_lt_Some).
      rewrite (_set_existing js _ (IArray l1) _ _ _ Hdb Hlook Hfit1).
      rewrite (_set_existing js _ (IArray (l1 ++ l2)) _ _ _ Hdb Hlook Hfit).
      simpl.
      erewrite _set_existing;
        [|exact Hdb|by apply list_lookup_insert_eq|done].
      simpl. by rewrite list_insert_insert_eq, app_assoc.
    + rewrite (_set_absent js _ (IArray l1) _ Hlook Hfit1).
      rewrite (_set_absent js _ (IArray (l1 ++ l2)) _ Hlook Hfit).
      simpl.
      erewrite _set_existing;
        [|by apply lookup_insert_eq|by apply list_lookup_middle|done].
      simpl. do 2 f_equal.
      by rewrite (insert_app_r_alt _ _ (length (arrays s))),
        Nat.sub_diag by lia.
  - intros a arr Hdb Harr.
    rewrite (_set_existing js _ (IArray []) _ _ _ Hdb Harr (fits_nil js)).
    simpl. rewrite app_nil_r. destruct arr as [l d]. simpl.
    by rewrite list_insert_id, store_eta.
  - intros Hdb.
    rewrite (_set_absent js _ (IArray [])) by
      (by rewrite ?Hdb; try apply fits_nil).
    unfold table_of. simpl. rewrite lookup_insert_eq. simpl.
    by rewrite list_lookup_middle.
Qed.

(** X10.  Removing a table.  [_deleteAll] never throws and returns [true],
    also for a table that does not exist; it touches neither the arrays
    (the array of a removed table keeps its records) nor the records nor
    any other name of [db], and doing it twice is doing it once.  For
    every name but [__proto__] the name is gone from [db] afterwards and
    retrieval from the removed table throws a TypeError.  The name
    [__proto__] is the exception: the array inserted under it is the
    prototype of [db], not a property, and [_deleteAll] leaves the store as
    it is. *)
Theorem deleteAll_removes_table (primKey : string)
    (loose_eq : value -> value -> bool)
    (s : store) (table : string) :
  ∃ s',
    _deleteAll table s = (s', Normal (RBool true))
    ∧ (∀ t, t ≠ table → db s' !! t = db s !! t)
    ∧ arrays s' = arrays s
    ∧ records s' = records s
    ∧ _deleteAll table s' = (s', Normal (RBool true))
    ∧ (table ≠ "__proto__" →
       db s' !! table = None
       ∧ ∀ key, _get primKey loose_eq table key s' = (s', Throw TypeError))
    ∧ (table = "__proto__" → s' = s).
Proof.
  eexists. split; [done|]. unfold _deleteAll. simpl.
  destruct (String.eqb table "__proto__") eqn:Heq; simpl.
  - apply String.eqb_eq in Heq.
    split; [done|]. split; [done|]. split; [done|]. split; [done|].
    split; [done|done].
  - apply String.eqb_neq in Heq.
    split; [by intros t Ht; apply lookup_delete_ne|].
    split; [done|]. split; [done|]. split.
    { by rewrite delete_delete_eq. }
    split; [|done]. intros _. split; [apply lookup_delete_eq|].
    intros key. apply _get_absent. simpl. apply lookup_delete_eq.
Qed.

(** X11.  A table made again is a new array.  When a table that exists,
    under a name other than [__proto__], is removed and records, no more
    than a call takes as arguments, are inserted under its name again, the
    table holds the new records only and is a different array object: a
    reference to the old array, as [_getAll] returned it before the
    removal, still holds the old records and does not see the new ones. *)
Theorem set_after_deleteAll_is_fresh (js : engine) (s : store)
    (table : string) (a : loc) (arr : array) (obj : items) :
  let l := match obj with IOne item => [item] | IArray l => l end in
  db s !! table = Some a →
  arrays s !! a = Some arr →
  table ≠ "__proto__" →
  fits js l →
  ∃ s' a',
    _set js table obj (_deleteAll table s).1 = (s', Normal tt)
    ∧ _getAll js table s' = (s', Normal (RArray a'))
    ∧ a' ≠ a
    ∧ table_of s' table = Some l
    ∧ arrays s' !! a = Some arr.
Proof.
  intros l Hdb Harr Hne Hfit.
  assert (a < length (arrays s))%nat by (by eapply lookup_lt_Some).
  assert (concat_items obj = l) as Hl by (by destruct obj).
  exists (Store (<[table := length (arrays s)]> (delete table (db s)))
            (arrays s ++ [Array l None]) (records s)),
    (length (arrays s)).
  unfold _deleteAll. simpl.
  rewrite (proj2 (String.eqb_neq table "__proto__") Hne).
  split.
  - rewrite _set_absent; rewrite ?Hl; [done| |done].
    simpl. by rewrite lookup_delete_eq.
  - rewrite (_getAll_own _ _ _ (length (arrays s)))
      by (simpl; apply lookup_insert_eq).
    unfold table_of. simpl.
    rewrite lookup_insert_eq. simpl. rewrite list_lookup_middle by done.
    split; [done|]. split; [lia|]. split; [done|].
    by rewrite lookup_app_l.
Qed.

Lemma set_after_deleteAll_is_fresh_witness :
  ∃ s' a',
    _set node "users" (IOne 1%nat) (_deleteAll "users" two_users).1
    = (s', Normal tt)
    ∧ _getAll node "users" s' = (s', Normal (RArray a'))
    ∧ a' ≠ 0%nat
    ∧ table_of s' "users" = Some [1%nat]
    ∧ arrays s' !! 0%nat = Some (Array [0; 1]%nat None).
Proof.
  apply (set_after_deleteAll_is_fresh node two_users "users" 0%nat
           (Array [0; 1]%nat None) (IOne 1%nat));
    [reflexivity | reflexivity | discriminate | apply fits_one].
Defined.

(** X12.  Insert, then retrieve by primary key.  When a record whose
    primary-key attribute holds the scalar [v] is inserted into a table,
    and [v == v] holds, retrieving with the filter [v] afterwards returns
    the records that matched [v] before, in their order, followed by the
    inserted record; so the inserted record alone when the table did not
    exist. *)
Theorem set_then_get_by_key (js : engine) (primKey : string)
    (loose_eq : value -> value -> bool)
    (s : store) (table : string) (item : loc) (rec : record) (v : scalar) :
  records s !! item = Some rec →
  rec !! primKey = Some (scalar_value v) →
  loose_eq (scalar_value v) (scalar_value v) = true →
  result_of (_get primKey loose_eq table (key_of_filter (FScalar v))
               (_set js table (IOne item) s).1)
  = Some (filter (λ x, matches primKey loose_eq (deref s x) (FScalar v))
            (default [] (table_of s table)) ++ [item])%list.
Proof.
  intros Hrec Hkey Hrefl.
  destruct (_set_table js s table (IOne item) (fits_one js item))
    as (a & d & Hdb & Harr & Hrecs).
  rewrite (_get_result_matches _ _ _ _ _ _ _ Hdb Harr). simpl.
  unfold deref. rewrite Hrecs. f_equal. rewrite filter_app. f_equal.
  rewrite filter_cons_True; [done|].
  rewrite Hrec. simpl. apply Exists_cons_hd.
  apply map_Forall_singleton. unfold get_attr. by rewrite Hkey.
Qed.

Lemma set_then_get_by_key_witness :
  result_of (_get "id" js_loose_eq "admins" (key_of_filter (FScalar (SNum 2)))
               (_set node "admins" (IOne 1%nat) two_users).1)
  = Some (filter (λ x, matches "id" js_loose_eq (deref two_users x)
                         (FScalar (SNum 2)))
            (default [] (table_of two_users "admins")) ++ [1%nat])%list.
Proof.
  apply (set_then_get_by_key node "id" js_loose_eq two_users "admins" 1%nat
           {[ "id" := VNum 2; "name" := VStr "b" ]} (SNum 2)); reflexivity.
Defined.

(** ** Table-scoped handles *)

(** X13.  A handle for a table that exists.  For a table name other than
    the empty string that is in [db], [_use(name)] returns a handle and
    leaves the store as it was.  Every method of the handle is the feature
    applied to the table name followed by the arguments given, so that
    [handle.getAll()] is [getAll(name)] and [handle.get(key)] is
    [get(name, key)].  The handle is bound to the name, not to the array it
    was made over: in any later store its [getAll] returns whatever [db]
    then holds under the name, the array of the table or, without one, what
    [db] inherits. *)
Theorem scoped_handle_delegates (js : engine) (primKey : string)
    (loose_eq : value -> value -> bool)
    (s : store) (table : string) (a : loc) :
  table ≠ "" →
  db s !! table = Some a →
  ∃ h,
    _use js (Some table) s = (s, Normal h)
    ∧ (∀ prop args,
         handle_call js primKey loose_eq h prop args
         = features js primKey loose_eq prop (ATable table :: args))
    ∧ (∀ key,
         handle_call js primKey loose_eq h "get" [AKey key]
         = Some (let! result := _get primKey loose_eq table key in
                 ret (RArray result)))
    ∧ (∀ s', ∃ m, handle_call js primKey loose_eq h "getAll" [] = Some m
                  ∧ m s' = (s', Normal (match db s' !! table with
                                        | Some a' => RArray a'
                                        | None =>
                                            retval_of (inherited js s' table)
                                        end))).
Proof.
  intros Hname Hdb. exists (Handle (TArray a) (Some table)).
  assert (truthy (Some table) = true) as Htruthy.
  { simpl. by rewrite (proj2 (String.eqb_neq table "") Hname). }
  split; [|split; [|split]].
  - unfold _use, bind, db_read. rewrite Htruthy. simpl. by rewrite Hdb.
  - intros prop args. unfold handle_call. simpl in *. by rewrite Htruthy.
  - intros key. unfold handle_call. simpl h_table. by rewrite Htruthy.
  - intros s'. eexists. unfold handle_call. simpl h_table. rewrite Htruthy.
    split; [done|]. unfold _getAll, bind, db_read, ret. simpl.
    by destruct (db s' !! table).
Qed.

Lemma scoped_handle_delegates_witness :
  ∃ h,
    _use node (Some "users") two_users = (two_users, Normal h)
    ∧ (∀ prop args,
         handle_call node "id" js_loose_eq h prop args
         = features node "id" js_loose_eq prop (ATable "users" :: args))
    ∧ (∀ key,
         handle_call node "id" js_loose_eq h "get" [AKey key]
         = Some (let! result := _get "id" js_loose_eq "users" key in
                 ret (RArray result)))
    ∧ (∀ s', ∃ m, handle_call node "id" js_loose_eq h "getAll" [] = Some m
                  ∧ m s' = (s', Normal (match db s' !! "users" with
                                        | Some a' => RArray a'
                                        | None =>
                                            retval_of (inherited node s' "users")
                                        end))).
Proof.
  apply (scoped_handle_delegates node "id" js_loose_eq two_users "users" 0%nat).
  - discriminate.
  - reflexivity.
Defined.

(** ** The theorems on filters at a concrete database *)

Lemma get_sequence_is_union_witness :
  ∃ l1 l2,
    result_of (_get "id" js_loose_eq "users"
                 (key_of_filter (FSeq [CScalar (SNum 1)])) two_users)
    = Some l1
    ∧ result_of (_get "id" js_loose_eq "users"
                   (key_of_filter (FSeq [CEq {[ "name" := VStr "b" ]}]))
                   two_users)
      = Some l2
    ∧ result_of
        (_get "id" js_loose_eq "users"
           (key_of_filter
              (FSeq ([CScalar (SNum 1)] ++ [CEq {[ "name" := VStr "b" ]}])))
           two_users)
      = Some (filter (λ item, item ∈ l1 ∨ item ∈ l2)
                (elems (Array [0; 1]%nat None))).
Proof.
  apply (get_sequence_is_union "id" js_loose_eq two_users "users" 0%nat
           (Array [0; 1]%nat None)); reflexivity.
Defined.

Lemma get_object_is_intersection_witness :
  ∃ l1 l2,
    result_of (_get "id" js_loose_eq "users"
                 (key_of_filter (FEq {[ "id" := VNum 2 ]})) two_users)
    = Some l1
    ∧ result_of (_get "id" js_loose_eq "users"
                   (key_of_filter (FEq {[ "name" := VStr "b" ]})) two_users)
      = Some l2
    ∧ result_of
        (_get "id" js_loose_eq "users"
           (key_of_filter
              (FEq ({[ "id" := VNum 2 ]} ∪ {[ "name" := VStr "b" ]})))
           two_users)
      = Some (filter (λ item, item ∈ l1 ∧ item ∈ l2)
                (elems (Array [0; 1]%nat None))).
Proof.
  apply (get_object_is_intersection "id" js_loose_eq two_users "users" 0%nat
           (Array [0; 1]%nat None)); [reflexivity | reflexivity |].
  apply map_disjoint_singleton_l. apply lookup_singleton_ne. discriminate.
Defined.

(** ** The helper [delete] in a later store *)

(** X14.  The helper [delete] by reference.  In a store of the shape the
    program builds, however much later the helper of a result is called:
    when the table exists, holds no record twice and still holds every
    record of the result, the call returns and exactly the records of the
    result leave the table, the others keeping their order.  The records
    are selected by reference; their attributes, which may have changed
    since the retrieval, are not looked at.  [db], the records and the
    result array itself are unchanged. *)
Theorem delete_helper_in_later_store (s : store) (r : loc) (res tbl : list loc)
    (table : string) :
  store_ok s →
  arrays s !! r = Some (Array res (Some table)) →
  table_of s table = Some tbl →
  NoDup tbl → NoDup res → res ⊆ tbl →
  ∃ s',
    call_delete r s = (s', Normal tt)
    ∧ table_of s' table = Some (filter (λ item, item ∉ res) tbl)
    ∧ db s' = db s
    ∧ records s' = records s
    ∧ arrays s' !! r = Some (Array res (Some table)).
Proof.
  intros [Halloc _] Hr Htbl Hnd Hndres Hsub. unfold table_of in Htbl.
  destruct (db s !! table) as [a|] eqn:Hdb; [|done]. simpl in Htbl.
  destruct (Halloc _ _ Hdb) as [l Ha]. rewrite Ha in Htbl.
  injection Htbl as ->.
  assert (a ≠ r) as Hne by (intros ->; congruence).
  assert (a < length (arrays s))%nat by (by eapply lookup_lt_Some).
  eexists. split; [by eapply call_delete_present|].
  unfold table_of. simpl. rewrite Hdb. simpl.
  rewrite list_lookup_insert_eq by done.
  rewrite list_lookup_insert_ne by done. done.
Qed.

Lemma delete_helper_in_later_store_witness :
  ∃ s',
    call_delete 1%nat
      (_get "id" js_loose_eq "users" (KOne (KNum 1)) two_users).1
    = (s', Normal tt)
    ∧ table_of s' "users" = Some (filter (λ item, item ∉ [0%nat]) [0; 1]%nat)
    ∧ db s' = db (_get "id" js_loose_eq "users" (KOne (KNum 1)) two_users).1
    ∧ records s'
      = records (_get "id" js_loose_eq "users" (KOne (KNum 1)) two_users).1
    ∧ arrays s' !! 1%nat = Some (Array [0%nat] (Some "users")).
Proof.
  apply (delete_helper_in_later_store
           (_get "id" js_loose_eq "users" (KOne (KNum 1)) two_users).1
           1%nat [0%nat] [0; 1]%nat "users").
  - apply store_ok__get, store_ok__set, store_ok_empty.
  - reflexivity.
  - reflexivity.
  - apply (bool_decide_unpack _). by vm_compute.
  - apply (bool_decide_unpack _). by vm_compute.
  - intros x Hx. apply list_elem_of_singleton in Hx as ->. by left.
Defined.

(** ** Results are snapshots *)

(** X15.  The array [_get] returns is a snapshot, unlike the one [_getAll]
    returns.  In a store of the shape the program builds, an array that
    carries the helper [delete] is not a table: inserting into any table,
    removing any table, retrieving again, and running the helper of any
    result (its own included) leave its elements as they are. *)
Theorem get_result_is_snapshot (js : engine) (primKey : string)
    (loose_eq : value -> value -> bool)
    (s : store) (r : loc) (res : list loc) (t0 : string) :
  store_ok s →
  arrays s !! r = Some (Array res (Some t0)) →
  (∀ table obj,
     arrays (_set js table obj s).1 !! r = Some (Array res (Some t0)))
  ∧ (∀ table, arrays (_deleteAll table s).1 !! r = Some (Array res (Some t0)))
  ∧ (∀ table key,
       arrays (_get primKey loose_eq table key s).1 !! r
       = Some (Array res (Some t0)))
  ∧ (∀ r', arrays (call_delete r' s).1 !! r = Some (Array res (Some t0))).
Proof.
  intros Hok Hr. pose proof Hok as [Halloc _].
  assert (r < length (arrays s))%nat as Hlt by (by eapply lookup_lt_Some).
  split; [|split; [|split]].
  - intros table obj.
    destruct (_set_cases js table obj s)
      as [(a & arr & Hdb & Hlook & [->| ->])|[Hlook [l ->]]]; [done| |];
      simpl.
    + rewrite list_lookup_insert_ne; [done|].
      intros ->. destruct (Halloc _ _ Hdb) as [l Hl]. congruence.
    + by rewrite lookup_app_l.
  - intros table. unfold _deleteAll. simpl.
    by destruct (String.eqb table "__proto__").
  - intros table key.
    destruct (_get_store primKey loose_eq table key s) as [->|[res' ->]];
      [done|]. simpl. by rewrite lookup_app_l.
  - intros r'.
    apply (call_delete_preserves
             (λ s', store_ok s' ∧ arrays s' !! r = Some (Array res (Some t0))));
      [|done].
    intros table item s' [Hok' Hr']. split.
    { apply bind_preserves; [done| |done].
      intros v s'' Hs''. by apply store_ok_deleteItem. }
    unfold bind, db_get, deleteItem, bind, array_of.
    destruct (db s' !! table) as [a|] eqn:Ha; [|done].
    destruct (arrays s' !! a) as [arr'|] eqn:Harr'; [|done]. simpl.
    rewrite list_lookup_alter_ne; [done|].
    intros ->. destruct Hok' as [Halloc' _].
    destruct (Halloc' _ _ Ha) as [l Hl]. congruence.
Qed.

Lemma get_result_is_snapshot_witness :
  (∀ table obj,
     arrays (_set node table obj
               (_get "id" js_loose_eq "users" (KOne (KNum 1)) two_users).1).1
       !! 1%nat
     = Some (Array [0%nat] (Some "users")))
  ∧ (∀ table,
       arrays (_deleteAll table
                 (_get "id" js_loose_eq "users" (KOne (KNum 1)) two_users).1).1
         !! 1%nat
       = Some (Array [0%nat] (Some "users")))
  ∧ (∀ table key,
       arrays (_get "id" js_loose_eq table key
                 (_get "id" js_loose_eq "users" (KOne (KNum 1)) two_users).1).1
         !! 1%nat
       = Some (Array [0%nat] (Some "users")))
  ∧ (∀ r',
       arrays (call_delete r'
                 (_get "id" js_loose_eq "users" (KOne (KNum 1)) two_users).1).1
         !! 1%nat
       = Some (Array [0%nat] (Some "users"))).
Proof.
  apply (get_result_is_snapshot node "id" js_loose_eq
           (_get "id" js_loose_eq "users" (KOne (KNum 1)) two_users).1
           1%nat [0%nat] "users").
  - apply store_ok__get, store_ok__set, store_ok_empty.
  - reflexivity.
Defined.

(** ** Insertion within the limit on arguments *)

(** X16.  Insertion.  For every table name and every single record or
    array of records that is no more than a call takes as arguments, [_set]
    returns [undefined] without throwing; afterwards the table exists and
    holds the records it held before (none, if it did not exist) followed
    by the given records in the order given.  The records themselves, the
    arrays [db] holds under the other names and every other array are
    unchanged, and a table that existed is still the same array object.
    (Under the name [__proto__] the new array is the prototype of [db],
    which then inherits from it.) *)
Theorem set_creates_and_appends (js : engine) (table : string) (obj : items)
    (s : store) :
  let l := match obj with IOne item => [item] | IArray l => l end in
  fits js l →
  ∃ s',
    _set js table obj s = (s', Normal tt)
    ∧ table_of s' table = Some (default [] (table_of s table) ++ l)%list
    ∧ records s' = records s
    ∧ (∀ t, t ≠ table → db s' !! t = db s !! t)
    ∧ (∀ b, db s' !! table ≠ Some b → arrays s' !! b = arrays s !! b)
    ∧ (∀ a, db s !! table = Some a → is_Some (arrays s !! a) →
            db s' !! table = Some a).
Proof.
  intros l Hfit.
  assert (concat_items obj = l) as Hl by (by destruct obj).
  rewrite <- Hl in *. clear l Hl.
  destruct (db s !! table ≫= (arrays s !!.)) as [arr|] eqn:Hlook.
  - destruct (db s !! table) as [a|] eqn:Hdb; [|done]. simpl in Hlook.
    eexists. split; [by apply _set_existing|]. unfold table_of. simpl.
    rewrite Hdb. simpl. rewrite Hlook. simpl.
    rewrite list_lookup_insert_eq by (by eapply lookup_lt_Some).
    split; [done|]. split; [done|]. split; [done|]. split; [|done].
    intros b Hb. rewrite list_lookup_insert_ne; [done|]. congruence.
  - eexists. split; [by apply _set_absent|]. unfold table_of. simpl.
    rewrite lookup_insert_eq. simpl. rewrite list_lookup_middle by done.
    replace (db s !! table ≫= λ a, elems <$> arrays s !! a)
      with (@None (list loc)).
    2:{ destruct (db s !! table) as [a|]; [|done]. simpl in *.
        by rewrite Hlook. }
    split; [done|]. split; [done|]. split; [|split].
    + intros t Ht. by rewrite lookup_insert_ne.
    + intros b Hb.
      assert (b ≠ length (arrays s)) by congruence.
      destruct (decide (b < length (arrays s))%nat).
      * by rewrite lookup_app_l.
      * rewrite !lookup_ge_None_2; [done | lia |].
        rewrite length_app. simpl. lia.
    + intros a Ha [arr Harr]. rewrite Ha in Hlook. simpl in Hlook. congruence.
Qed.

Lemma set_creates_and_appends_witness :
  ∃ s',
    _set node "users" (IArray [1%nat]) two_users = (s', Normal tt)
    ∧ table_of s' "users"
      = Some (default [] (table_of two_users "users") ++ [1%nat])%list
    ∧ records s' = records two_users
    ∧ (∀ t, t ≠ "users" → db s' !! t = db two_users !! t)
    ∧ (∀ b, db s' !! "users" ≠ Some b →
            arrays s' !! b = arrays two_users !! b)
    ∧ (∀ a, db two_users !! "users" = Some a →
            is_Some (arrays two_users !! a) → db s' !! "users" = Some a).
Proof.
  apply (set_creates_and_appends node "users" (IArray [1%nat]) two_users).
  apply fits_one.
Defined.

(** ** The name [__proto__] *)

(** X17.  A table under the name [__proto__].  [db["__proto__"] = []]
    does not add a property to [db]: it makes the new array the prototype
    of [db].  After a record is inserted under that name into a database
    whose prototype was still [Object.prototype], [getAll("__proto__")]
    returns the array that holds the record, and [db] inherits the
    properties of that array: [getAll("length")] is the number [1],
    [getAll("0")] is the record, [use("length")] throws a TypeError, a
    number being no object, and a name of [Array.prototype] reads as the
    function found there.  [deleteAll("__proto__")] removes nothing. *)
Theorem proto_table (js : engine) (s : store) (item : loc) :
  db s !! "__proto__" = None →
  ∃ s' a,
    _set js "__proto__" (IOne item) s = (s', Normal tt)
    ∧ _getAll js "__proto__" s' = (s', Normal (RArray a))
    ∧ arrays s' !! a = Some (Array [item] None)
    ∧ (db s !! "length" = None →
       _getAll js "length" s' = (s', Normal (RValue (VNum 1)))
       ∧ _use js (Some "length") s' = (s', Throw TypeError))
    ∧ (db s !! "0" = None →
       _getAll js "0" s' = (s', Normal (RValue (VObj item))))
    ∧ (∀ name v,
         db s !! name = None →
         name ≠ "__proto__" → name ≠ "length" → name ≠ "0" →
         Array_prototype js name = Some v →
         _getAll js name s' = (s', Normal (retval_of v)))
    ∧ _deleteAll "__proto__" s' = (s', Normal (RBool true)).
Proof.
  intros Hproto.
  exists (Store (<["__proto__" := length (arrays s)]> (db s))
            (arrays s ++ [Array [item] None]) (records s)),
    (length (arrays s)).
  assert (∀ name, name ≠ "__proto__" → db s !! name = None →
            <["__proto__" := length (arrays s)]> (db s) !! name = None)
    as Hother by (intros; by rewrite lookup_insert_ne).
  split; [|split; [|split; [|split; [|split; [|split]]]]].
  - rewrite (_set_absent js _ (IOne item)); [done| |apply fits_one].
    by rewrite Hproto.
  - apply _getAll_own. simpl. apply lookup_insert_eq.
  - simpl. by apply list_lookup_middle.
  - intros Hlen. split.
    + rewrite _getAll_inherited by (by apply Hother).
      unfold inherited. simpl. rewrite lookup_insert_eq. simpl.
      by rewrite list_lookup_middle.
    + apply _use_absent; [done|by apply Hother|]. intros l.
      unfold inherited. simpl. rewrite lookup_insert_eq. simpl.
      by rewrite list_lookup_middle.
  - intros Hzero. rewrite _getAll_inherited by (by apply Hother).
    unfold inherited. simpl. rewrite lookup_insert_eq. simpl.
    by rewrite list_lookup_middle.
  - intros name v Hname Hne Hlen Hzero Hv.
    rewrite _getAll_inherited by (by apply Hother).
    unfold inherited. simpl. rewrite lookup_insert_eq. simpl.
    rewrite list_lookup_middle by done. simpl.
    assert (array_own_property (Array [item] None) name = None) as ->.
    { unfold array_own_property.
      rewrite (proj2 (String.eqb_neq name "length") Hlen).
      assert (String.eqb (index_name 0) name = false) as Hindex.
      { apply String.eqb_neq. intros <-. by apply Hzero. }
      cbn [elems]. rewrite imap_cons, Hindex. done. }
    by rewrite Hv.
  - done.
Qed.

Lemma proto_table_witness :
  ∃ s' a,
    _set node "__proto__" (IOne 0%nat) (empty_store two_records)
    = (s', Normal tt)
    ∧ _getAll node "__proto__" s' = (s', Normal (RArray a))
    ∧ arrays s' !! a = Some (Array [0%nat] None)
    ∧ (db (empty_store two_records) !! "length" = None →
       _getAll node "length" s' = (s', Normal (RValue (VNum 1)))
       ∧ _use node (Some "length") s' = (s', Throw TypeError))
    ∧ (db (empty_store two_records) !! "0" = None →
       _getAll node "0" s' = (s', Normal (RValue (VObj 0%nat))))
    ∧ (∀ name v,
         db (empty_store two_records) !! name = None →
         name ≠ "__proto__" → name ≠ "length" → name ≠ "0" →
         Array_prototype node name = Some v →
         _getAll node name s' = (s', Normal (retval_of v)))
    ∧ _deleteAll "__proto__" s' = (s', Normal (RBool true)).
Proof.
  apply (proto_table node (empty_store two_records) 0%nat). reflexivity.
Defined.
